(** * gobpf-conntracer: kernel probes of the streaming variant and the
      userspace tracers, embedded from

      - bpf/conntracer_streaming.bpf.c  (module [Bpf])
      - tracer.go                       (module [Tracer])
      - tracer_streaming.go             (module [Streaming])

    Fixed-width C and Go integers are [Z] with the wrap-around written
    out; BPF hash maps and Go maps are [gmap]; the ring buffer is the list
    of the records submitted so far, oldest first. *)

From Stdlib Require Import ZArith Lia.
From stdpp Require Import gmap list.

Open Scope Z_scope.

(** ** Machine integers *)

Definition u8 (x : Z) : Z := x mod 2 ^ 8.
Definition u16 (x : Z) : Z := x mod 2 ^ 16.
Definition u32 (x : Z) : Z := x mod 2 ^ 32.
Definition u64 (x : Z) : Z := x mod 2 ^ 64.

(** Two's complement reading of the low [w] bits. *)
Definition signed (w : Z) (x : Z) : Z :=
  let y := x mod 2 ^ w in
  if y <? 2 ^ (w - 1) then y else y - 2 ^ w.

Definition i32 (x : Z) : Z := signed 32 x.
Definition i64 (x : Z) : Z := signed 64 x.

(** ** bpf/conntracer_streaming.bpf.c *)

Module Bpf.

(** [__BYTE_ORDER__] of the BPF target, which decides what bpf_endian.h
    makes of [bpf_htons]. *)
Inductive byte_order := LittleEndian | BigEndian.

Definition bswap16 (x : Z) : Z :=
  Z.lor (Z.shiftl (Z.land x 255) 8) (Z.land (Z.shiftr x 8) 255).

Definition bpf_htons (bo : byte_order) (x : Z) : Z :=
  match bo with
  | LittleEndian => bswap16 (u16 x)
  | BigEndian => u16 x
  end.

Definition IPPROTO_TCP : Z := 6.
Definition IPPROTO_UDP : Z := 17.

(** *** Kernel structures read by the probes *)

Record sock_common := {
  skc_daddr : Z;      (* __be32 *)
  skc_rcv_saddr : Z;  (* __be32 *)
  skc_dport : Z;      (* __be16: remote port, network byte order *)
  skc_num : Z         (* __u16: local port, host byte order *)
}.

Record sock := { __sk_common : sock_common }.

Record flowi4 := { fl4_saddr : Z; fl4_daddr : Z }.

Record sk_buff := {
  head : Z;              (* unsigned char * *)
  transport_header : Z;  (* __u16 *)
  network_header : Z     (* __u16 *)
}.

Record udphdr := { source : Z; dest : Z }.   (* __be16 both *)

Record iphdr := { ip_saddr : Z; ip_daddr : Z }.

(** Kernel memory as the probes see it: what lives at which address. *)
Record kmem := {
  mem_sock : gmap Z sock;
  mem_flowi4 : gmap Z flowi4;
  mem_sk_buff : gmap Z sk_buff;
  mem_udphdr : gmap Z udphdr;
  mem_iphdr : gmap Z iphdr
}.

(** [BPF_CORE_READ] / [BPF_CORE_READ_INTO] of one scalar field through a
    pointer: [bpf_probe_read_kernel] zeroes the destination when the
    address cannot be read. *)
Definition core_read {A : Type} (m : gmap Z A) (p : Z) (f : A → Z) : Z :=
  match m !! p with
  | Some a => f a
  | None => 0
  end.

Definition read16 {A : Type} (m : gmap Z A) (p : Z) (f : A → Z) : Z :=
  u16 (core_read m p f).
Definition read32 {A : Type} (m : gmap Z A) (p : Z) (f : A → Z) : Z :=
  u32 (core_read m p f).
Definition read64 {A : Type} (m : gmap Z A) (p : Z) (f : A → Z) : Z :=
  u64 (core_read m p f).

(** *** Records of conntracer.h used by this file *)

(** struct flow: the ring-buffer record. *)
Record flow := {
  ts_us : Z;
  saddr : Z;
  daddr : Z;
  lport : Z;
  direction : Z;
  l4_proto : Z;
  pid : Z;
  task : list Z
}.

(** struct ipv4_flow_key. *)
Record ipv4_flow_key := {
  k_saddr : Z;
  k_daddr : Z;
  k_lport : Z;
  k_direction : Z;
  k_l4_proto : Z
}.

(** *** What the BPF helpers answer during one probe invocation *)

Record helpers := {
  bpf_get_current_pid_tgid : Z;           (* __u64 *)
  bpf_ktime_get_ns : Z;                   (* __u64 *)
  bpf_get_current_comm : list Z;          (* char[TASK_COMM_LEN] *)
  (* NULL, or a region of the ring whose bytes are whatever an earlier
     record (or the initial zero page) left there *)
  bpf_ringbuf_reserve : option flow;
  memory : kmem
}.

(** *** Maps of the object *)

Record maps := {
  tcp_connect_sockets : gmap Z Z;   (* tid -> struct sock * *)
  udp_port_binding : gmap Z Z;      (* port -> state, port_binding.h *)
  flows : list flow                 (* ring buffer, submitted records *)
}.

Definition set_tcp_connect_sockets (f : gmap Z Z → gmap Z Z) (m : maps) : maps :=
  {| tcp_connect_sockets := f (tcp_connect_sockets m);
     udp_port_binding := udp_port_binding m;
     flows := flows m |}.

Definition bpf_ringbuf_submit (r : flow) (m : maps) : maps :=
  {| tcp_connect_sockets := tcp_connect_sockets m;
     udp_port_binding := udp_port_binding m;
     flows := flows m ++ [r] |}.

Section Probes.

(** Constants declared in conntracer.h, kept abstract: the three
    enumerators of [flow_direction] and the capacity of the hash maps. *)
Variables FLOW_UNKNOWN FLOW_ACTIVE FLOW_PASSIVE : Z.
Variable MAX_ENTRIES : nat.

(** Byte order of the target the object is compiled for. *)
Variable target : byte_order.

(** The enumerators are pairwise different (they label the cases of one
    switch in [flowDirectionFrom], tracer.go) and fit the [__u8] fields
    that carry them. *)
Definition flow_direction_enum : Prop :=
  (0 <= FLOW_UNKNOWN < 2 ^ 8 ∧ 0 <= FLOW_ACTIVE < 2 ^ 8
   ∧ 0 <= FLOW_PASSIVE < 2 ^ 8)
  ∧ FLOW_UNKNOWN ≠ FLOW_ACTIVE ∧ FLOW_UNKNOWN ≠ FLOW_PASSIVE
  ∧ FLOW_ACTIVE ≠ FLOW_PASSIVE.

Definition current_pid (h : helpers) : Z :=
  Z.shiftr (u64 (bpf_get_current_pid_tgid h)) 32.

Definition current_tid (h : helpers) : Z :=
  u32 (bpf_get_current_pid_tgid h).

Definition insert_flows (h : helpers) (pid0 sk lport0 direction0 : Z)
    (m : maps) : maps :=
  match bpf_ringbuf_reserve h with
  | None => m
  | Some slot =>
      bpf_ringbuf_submit
        {| ts_us := u64 (bpf_ktime_get_ns h) / 1000;
           saddr := read32 (mem_sock (memory h)) sk
                      (λ s, skc_rcv_saddr (__sk_common s));
           daddr := read32 (mem_sock (memory h)) sk
                      (λ s, skc_daddr (__sk_common s));
           lport := u16 lport0;
           direction := u8 direction0;
           l4_proto := l4_proto slot;     (* never written *)
           pid := pid0;
           task := bpf_get_current_comm h |} m
  end.

Definition insert_udp_flows (h : helpers) (pid0 : Z)
    (flow_key : ipv4_flow_key) (m : maps) : maps :=
  match bpf_ringbuf_reserve h with
  | None => m
  | Some _ =>
      bpf_ringbuf_submit
        {| ts_us := u64 (bpf_ktime_get_ns h) / 1000;
           saddr := k_saddr flow_key;
           daddr := k_daddr flow_key;
           lport := k_lport flow_key;
           direction := k_direction flow_key;
           l4_proto := k_l4_proto flow_key;
           pid := pid0;
           task := bpf_get_current_comm h |} m
  end.

(** [bpf_map_update_elem(.., BPF_ANY)] on a hash map of [MAX_ENTRIES]:
    a new key is refused once the map is full. *)
Definition bpf_map_update_elem (k v : Z) (t : gmap Z Z) : gmap Z Z :=
  match t !! k with
  | Some _ => <[k := v]> t
  | None => if decide (size t < MAX_ENTRIES)%nat then <[k := v]> t else t
  end.

(** kprobe/tcp_v4_connect *)
Definition tcp_v4_connect (h : helpers) (sk : Z) (m : maps) : maps :=
  set_tcp_connect_sockets (bpf_map_update_elem (current_tid h) sk) m.

(** kretprobe/tcp_v4_connect *)
Definition tcp_v4_connect_ret (h : helpers) (ret : Z) (m : maps) : maps :=
  match tcp_connect_sockets m !! current_tid h with
  | None => m
  | Some sk =>
      let m' :=
        if decide (ret = 0) then
          let dport := read16 (mem_sock (memory h)) sk
                         (λ s, skc_dport (__sk_common s)) in
          insert_flows h (current_pid h) sk dport FLOW_ACTIVE m
        else m in
      set_tcp_connect_sockets (delete (current_tid h)) m'
  end.

(** kretprobe/inet_csk_accept *)
Definition inet_csk_accept_ret (h : helpers) (sk : Z) (m : maps) : maps :=
  if decide (sk = 0) then m
  else
    let lport0 := read16 (mem_sock (memory h)) sk
                    (λ s, skc_num (__sk_common s)) in
    insert_flows h (current_pid h) sk lport0 FLOW_PASSIVE m.

(** kprobe/ip_make_skb *)
Definition ip_make_skb (h : helpers) (sk flw4 : Z) (m : maps) : maps :=
  let sport := read16 (mem_sock (memory h)) sk
                 (λ s, skc_num (__sk_common s)) in
  let dport := read16 (mem_sock (memory h)) sk
                 (λ s, skc_dport (__sk_common s)) in
  let flow_key :=
    match udp_port_binding m !! sport with
    | Some _ =>
        {| k_saddr := read32 (mem_flowi4 (memory h)) flw4 fl4_daddr;
           k_daddr := read32 (mem_flowi4 (memory h)) flw4 fl4_saddr;
           k_lport := bpf_htons target sport;
           k_direction := u8 FLOW_PASSIVE;
           k_l4_proto := IPPROTO_UDP |}
    | None =>
        {| k_saddr := read32 (mem_flowi4 (memory h)) flw4 fl4_saddr;
           k_daddr := read32 (mem_flowi4 (memory h)) flw4 fl4_daddr;
           k_lport := dport;
           k_direction := u8 FLOW_ACTIVE;
           k_l4_proto := IPPROTO_UDP |}
    end in
  insert_udp_flows h (current_pid h) flow_key m.

(** Address of the UDP header, [head + transport_header]. *)
Definition skb_udphdr (h : helpers) (skb : Z) : Z :=
  u64 (read64 (mem_sk_buff (memory h)) skb head
       + read16 (mem_sk_buff (memory h)) skb transport_header).

(** Address of the IP header, [head + network_header]. *)
Definition skb_iphdr (h : helpers) (skb : Z) : Z :=
  u64 (read64 (mem_sk_buff (memory h)) skb head
       + read16 (mem_sk_buff (memory h)) skb network_header).

(** kprobe/skb_consume_udp *)
Definition skb_consume_udp (h : helpers) (sk skb : Z) (m : maps) : maps :=
  let udph := skb_udphdr h skb in
  let iph := skb_iphdr h skb in
  let sport := read16 (mem_udphdr (memory h)) udph source in
  let dport := read16 (mem_udphdr (memory h)) udph dest in
  let dport_key := bpf_htons target dport in
  let flow_key :=
    match udp_port_binding m !! dport_key with
    | Some _ =>
        {| k_saddr := read32 (mem_iphdr (memory h)) iph ip_saddr;
           k_daddr := read32 (mem_iphdr (memory h)) iph ip_daddr;
           k_lport := dport;
           k_direction := u8 FLOW_PASSIVE;
           k_l4_proto := IPPROTO_UDP |}
    | None =>
        {| k_saddr := read32 (mem_iphdr (memory h)) iph ip_daddr;
           k_daddr := read32 (mem_iphdr (memory h)) iph ip_saddr;
           k_lport := sport;
           k_direction := u8 FLOW_ACTIVE;
           k_l4_proto := IPPROTO_UDP |}
    end in
  insert_udp_flows h (current_pid h) flow_key m.

(** The five kprobe and kretprobe programs of the object, with the
    arguments the kernel hands them. The four tracepoint programs at the
    end of the file (socket and bind, entry and exit) only forward to
    functions of port_binding.h, which keep [udp_port_binding] up to date;
    they are not embedded here, and for the five probes
    [udp_port_binding] is a table that someone else writes. *)
Inductive probe :=
  | Tcp_v4_connect (sk : Z)
  | Tcp_v4_connect_ret (ret : Z)
  | Inet_csk_accept_ret (sk : Z)
  | Ip_make_skb (sk flw4 : Z)
  | Skb_consume_udp (sk skb : Z).

Definition fire (p : probe) (h : helpers) (m : maps) : maps :=
  match p with
  | Tcp_v4_connect sk => tcp_v4_connect h sk m
  | Tcp_v4_connect_ret ret => tcp_v4_connect_ret h ret m
  | Inet_csk_accept_ret sk => inet_csk_accept_ret h sk m
  | Ip_make_skb sk flw4 => ip_make_skb h sk flw4 m
  | Skb_consume_udp sk skb => skb_consume_udp h sk skb m
  end.

(** Record [r] was emitted by this firing of [p]: it is what the firing
    added to the ring. *)
Definition emitted_by (p : probe) (h : helpers) (m : maps) (r : flow) : Prop :=
  flows (fire p h m) = flows m ++ [r].

Definition is_tcp_probe (p : probe) : bool :=
  match p with
  | Tcp_v4_connect _ | Tcp_v4_connect_ret _ | Inet_csk_accept_ret _ => true
  | _ => false
  end.

Definition is_connect_ret (p : probe) : bool :=
  match p with Tcp_v4_connect_ret _ => true | _ => false end.

Definition is_accept_ret (p : probe) : bool :=
  match p with Inet_csk_accept_ret _ => true | _ => false end.

Definition is_udp_probe (p : probe) : bool :=
  match p with
  | Ip_make_skb _ _ | Skb_consume_udp _ _ => true
  | _ => false
  end.

(** The key under which a UDP probe looks its local port up in
    [udp_port_binding]. *)
Definition udp_local_port_key (p : probe) (h : helpers) : Z :=
  match p with
  | Ip_make_skb sk _ =>
      read16 (mem_sock (memory h)) sk (λ s, skc_num (__sk_common s))
  | Skb_consume_udp _ skb =>
      bpf_htons target
        (read16 (mem_udphdr (memory h)) (skb_udphdr h skb) dest)
  | _ => 0
  end.

(** *** What a firing adds to the ring *)

Lemma no_emission_absurd (l : list flow) (r : flow) : l = l ++ [r] → False.
Proof.
  intros H. apply (f_equal length) in H. rewrite length_app in H.
  simpl in H. lia.
Qed.

Lemma u16_idemp x : u16 (u16 x) = u16 x.
Proof. unfold u16. by rewrite Z.mod_mod. Qed.

Lemma u16_read16 {A : Type} (t : gmap Z A) a f : u16 (read16 t a f) = read16 t a f.
Proof. apply u16_idemp. Qed.

Lemma insert_flows_emitted h pid0 sk lport0 direction0 m r :
  flows (insert_flows h pid0 sk lport0 direction0 m) = flows m ++ [r] →
  ∃ slot, bpf_ringbuf_reserve h = Some slot
    ∧ lport r = u16 lport0 ∧ direction r = u8 direction0
    ∧ l4_proto r = l4_proto slot ∧ pid r = pid0.
Proof.
  unfold insert_flows. destruct (bpf_ringbuf_reserve h) as [slot|]; simpl.
  - intros H. apply app_inv_head in H. injection H as <-.
    exists slot. simpl. done.
  - intros H. by apply no_emission_absurd in H.
Qed.

Lemma insert_udp_flows_emitted h pid0 key m r :
  flows (insert_udp_flows h pid0 key m) = flows m ++ [r] →
  is_Some (bpf_ringbuf_reserve h)
  ∧ saddr r = k_saddr key ∧ daddr r = k_daddr key
  ∧ lport r = k_lport key ∧ direction r = k_direction key
  ∧ l4_proto r = k_l4_proto key ∧ pid r = pid0.
Proof.
  unfold insert_udp_flows. destruct (bpf_ringbuf_reserve h) as [slot|]; simpl.
  - intros H. apply app_inv_head in H. injection H as <-. simpl. eauto 10.
  - intros H. by apply no_emission_absurd in H.
Qed.

Lemma flows_set_tcp_connect_sockets f m :
  flows (set_tcp_connect_sockets f m) = flows m.
Proof. reflexivity. Qed.

(** The entry probe of connect only records the socket. *)
Lemma tcp_v4_connect_silent h sk m r : ¬ emitted_by (Tcp_v4_connect sk) h m r.
Proof. unfold emitted_by. simpl. intros H. by apply no_emission_absurd in H. Qed.

Lemma tcp_v4_connect_ret_emitted h ret m r :
  emitted_by (Tcp_v4_connect_ret ret) h m r →
  ∃ sk slot, tcp_connect_sockets m !! current_tid h = Some sk ∧ ret = 0
    ∧ bpf_ringbuf_reserve h = Some slot
    ∧ lport r = (read16 (mem_sock (memory h)) sk
                       (λ s, skc_dport (__sk_common s)))
    ∧ direction r = u8 FLOW_ACTIVE
    ∧ l4_proto r = l4_proto slot.
Proof.
  unfold emitted_by. simpl. unfold tcp_v4_connect_ret.
  destruct (tcp_connect_sockets m !! current_tid h) as [sk|] eqn:Hsk.
  - rewrite flows_set_tcp_connect_sockets. case_decide as Hret.
    + intros H. apply insert_flows_emitted in H as (slot & ? & Hl & ? & ? & ?).
      rewrite u16_read16 in Hl. exists sk, slot. done.
    + intros H. by apply no_emission_absurd in H.
  - intros H. by apply no_emission_absurd in H.
Qed.

Lemma inet_csk_accept_ret_emitted h sk m r :
  emitted_by (Inet_csk_accept_ret sk) h m r →
  ∃ slot, sk ≠ 0 ∧ bpf_ringbuf_reserve h = Some slot
    ∧ lport r = (read16 (mem_sock (memory h)) sk
                       (λ s, skc_num (__sk_common s)))
    ∧ direction r = u8 FLOW_PASSIVE
    ∧ l4_proto r = l4_proto slot.
Proof.
  unfold emitted_by. simpl. unfold inet_csk_accept_ret. case_decide as Hsk.
  - intros H. by apply no_emission_absurd in H.
  - intros H. apply insert_flows_emitted in H as (slot & ? & Hl & ? & ? & ?).
    rewrite u16_read16 in Hl. exists slot. done.
Qed.

Lemma u8_small d : 0 <= d < 2 ^ 8 → u8 d = d.
Proof. intros H. unfold u8. by apply Z.mod_small. Qed.

(** C1. Every record a TCP probe emits is ACTIVE exactly when the
    connect return probe emitted it and PASSIVE exactly when the accept
    return probe did; none is UNKNOWN. *)
Theorem tcp_direction_by_probe p h m r :
  flow_direction_enum →
  is_tcp_probe p = true →
  emitted_by p h m r →
  (direction r = FLOW_ACTIVE ↔ is_connect_ret p = true)
  ∧ (direction r = FLOW_PASSIVE ↔ is_accept_ret p = true)
  ∧ direction r ≠ FLOW_UNKNOWN.
Proof.
  intros ((HU & HA & HP) & HUA & HUP & HAP) Htcp Hem.
  destruct p as [sk|ret|sk|sk flw4|sk skb]; simpl in *; try discriminate.
  - by apply tcp_v4_connect_silent in Hem.
  - apply tcp_v4_connect_ret_emitted in Hem
      as (sk & slot & _ & _ & _ & _ & Hd & _).
    rewrite (u8_small _ HA) in Hd. rewrite Hd.
    repeat split; try done; intros; congruence.
  - apply inet_csk_accept_ret_emitted in Hem as (slot & _ & _ & _ & Hd & _).
    rewrite (u8_small _ HP) in Hd. rewrite Hd.
    repeat split; try done; intros; congruence.
Qed.

Lemma ip_make_skb_emitted h sk flw4 m r :
  emitted_by (Ip_make_skb sk flw4) h m r →
  l4_proto r = IPPROTO_UDP
  ∧ match udp_port_binding m !! udp_local_port_key (Ip_make_skb sk flw4) h with
    | Some _ =>
        direction r = u8 FLOW_PASSIVE
        ∧ lport r = bpf_htons target
                      (read16 (mem_sock (memory h)) sk
                         (λ s, skc_num (__sk_common s)))
    | None =>
        direction r = u8 FLOW_ACTIVE
        ∧ lport r = read16 (mem_sock (memory h)) sk
                      (λ s, skc_dport (__sk_common s))
    end.
Proof.
  unfold emitted_by. simpl. unfold ip_make_skb. intros H.
  apply insert_udp_flows_emitted in H as (_ & _ & _ & Hl & Hd & Hp & _).
  destruct (udp_port_binding m !! _); simpl in *; done.
Qed.

Lemma skb_consume_udp_emitted h sk skb m r :
  emitted_by (Skb_consume_udp sk skb) h m r →
  l4_proto r = IPPROTO_UDP
  ∧ match udp_port_binding m !! udp_local_port_key (Skb_consume_udp sk skb) h with
    | Some _ =>
        direction r = u8 FLOW_PASSIVE
        ∧ lport r = read16 (mem_udphdr (memory h)) (skb_udphdr h skb) dest
    | None =>
        direction r = u8 FLOW_ACTIVE
        ∧ lport r = read16 (mem_udphdr (memory h)) (skb_udphdr h skb) source
    end.
Proof.
  unfold emitted_by. simpl. unfold skb_consume_udp. intros H.
  apply insert_udp_flows_emitted in H as (_ & _ & _ & Hl & Hd & Hp & _).
  destruct (udp_port_binding m !! _); simpl in *; done.
Qed.

(** C2. A record emitted on the UDP send or receive path is PASSIVE when
    the lookup of the local port in [udp_port_binding] succeeds and ACTIVE
    when it fails; so it is PASSIVE whenever the table is the result of
    inserting that port. *)
Theorem udp_direction_by_port_binding p h m r :
  flow_direction_enum →
  is_udp_probe p = true →
  emitted_by p h m r →
  (is_Some (udp_port_binding m !! udp_local_port_key p h) →
     direction r = FLOW_PASSIVE)
  ∧ (udp_port_binding m !! udp_local_port_key p h = None →
     direction r = FLOW_ACTIVE)
  ∧ (∀ (b : gmap Z Z) (st : Z),
       udp_port_binding m = <[udp_local_port_key p h := st]> b →
       direction r = FLOW_PASSIVE).
Proof.
  intros ((HU & HA & HP) & _) Hudp Hem.
  assert (Hcases :
    match udp_port_binding m !! udp_local_port_key p h with
    | Some _ => direction r = FLOW_PASSIVE
    | None => direction r = FLOW_ACTIVE
    end).
  { destruct p as [sk|ret|sk|sk flw4|sk skb]; try discriminate.
    - apply ip_make_skb_emitted in Hem as [_ Hem].
      destruct (udp_port_binding m !! _); destruct Hem as [-> _];
        by apply u8_small.
    - apply skb_consume_udp_emitted in Hem as [_ Hem].
      destruct (udp_port_binding m !! _); destruct Hem as [-> _];
        by apply u8_small. }
  split; [|split].
  - intros [st Hst]. by rewrite Hst in Hcases.
  - intros Hnone. by rewrite Hnone in Hcases.
  - intros b st Hb. rewrite Hb, lookup_insert_eq in Hcases. done.
Qed.

(** The return probe of connect leaves the other maps alone. *)
Lemma tcp_v4_connect_ret_sockets h ret m :
  tcp_connect_sockets (tcp_v4_connect_ret h ret m)
  = delete (current_tid h) (tcp_connect_sockets m).
Proof.
  unfold tcp_v4_connect_ret.
  destruct (tcp_connect_sockets m !! current_tid h) as [sk|] eqn:Hsk.
  - simpl. case_decide; [|done].
    unfold insert_flows. by destruct (bpf_ringbuf_reserve h).
  - symmetry. by apply delete_id.
Qed.

(** C5. The return probe of connect removes the thread's entry from the
    in-flight map whatever the syscall returned, and emits nothing when
    the return value is not zero. *)
Theorem tcp_v4_connect_ret_cleanup h ret m :
  tcp_connect_sockets (tcp_v4_connect_ret h ret m)
    = delete (current_tid h) (tcp_connect_sockets m)
  ∧ tcp_connect_sockets (tcp_v4_connect_ret h ret m) !! current_tid h = None
  ∧ (ret ≠ 0 → flows (tcp_v4_connect_ret h ret m) = flows m).
Proof.
  split; [apply tcp_v4_connect_ret_sockets|split].
  - rewrite tcp_v4_connect_ret_sockets. apply lookup_delete_eq.
  - intros Hret. unfold tcp_v4_connect_ret.
    destruct (tcp_connect_sockets m !! current_tid h); [|done].
    rewrite flows_set_tcp_connect_sockets. by case_decide.
Qed.

(** Entry then return on one thread: nothing of the thread stays in the
    in-flight map, whether or not the entry probe could store the socket. *)
Lemma connect_entry_then_return h h' sk ret m :
  current_tid h' = current_tid h →
  tcp_connect_sockets
    (tcp_v4_connect_ret h' ret (tcp_v4_connect h sk m)) !! current_tid h
  = None.
Proof.
  intros Htid. rewrite tcp_v4_connect_ret_sockets, Htid.
  apply lookup_delete_eq.
Qed.

(** [insert_flows] has no assignment to [flow->l4_proto]: a TCP record
    carries in that field what the reserved region held before. *)
Lemma tcp_l4_proto_stale p h m r :
  is_tcp_probe p = true →
  emitted_by p h m r →
  ∃ slot, bpf_ringbuf_reserve h = Some slot ∧ l4_proto r = l4_proto slot.
Proof.
  intros Htcp Hem.
  destruct p as [sk|ret|sk|sk flw4|sk skb]; simpl in *; try discriminate.
  - by apply tcp_v4_connect_silent in Hem.
  - apply tcp_v4_connect_ret_emitted in Hem
      as (sk & slot & _ & _ & ? & _ & _ & ?). eauto.
  - apply inet_csk_accept_ret_emitted in Hem as (slot & _ & ? & _ & _ & ?).
    eauto.
Qed.

(** X12. [insert_udp_flows] does write it. *)
Lemma udp_l4_proto p h m r :
  is_udp_probe p = true → emitted_by p h m r → l4_proto r = IPPROTO_UDP.
Proof.
  intros Hudp Hem.
  destruct p as [sk|ret|sk|sk flw4|sk skb]; try discriminate.
  - by apply ip_make_skb_emitted in Hem as [? _].
  - by apply skb_consume_udp_emitted in Hem as [? _].
Qed.

(** *** Byte order of the listening port *)

(** Local port of the flow a firing observes, in network byte order:
    [skc_num] is kept in host order by the kernel, the ports of a UDP
    header are on the wire already. *)
Definition local_port_be (p : probe) (h : helpers) (m : maps) : Z :=
  let of_sock sk :=
    bpf_htons target
      (read16 (mem_sock (memory h)) sk (λ s, skc_num (__sk_common s))) in
  match p with
  | Tcp_v4_connect sk | Inet_csk_accept_ret sk | Ip_make_skb sk _ => of_sock sk
  | Tcp_v4_connect_ret _ =>
      match tcp_connect_sockets m !! current_tid h with
      | Some sk => of_sock sk
      | None => 0
      end
  | Skb_consume_udp _ skb =>
      read16 (mem_udphdr (memory h)) (skb_udphdr h skb) dest
  end.

(** Remote port of that flow, in network byte order: [skc_dport] and the
    source port of a received datagram. *)
Definition remote_port_be (p : probe) (h : helpers) (m : maps) : Z :=
  let of_sock sk :=
    read16 (mem_sock (memory h)) sk (λ s, skc_dport (__sk_common s)) in
  match p with
  | Tcp_v4_connect sk | Inet_csk_accept_ret sk | Ip_make_skb sk _ => of_sock sk
  | Tcp_v4_connect_ret _ =>
      match tcp_connect_sockets m !! current_tid h with
      | Some sk => of_sock sk
      | None => 0
      end
  | Skb_consume_udp _ skb =>
      read16 (mem_udphdr (memory h)) (skb_udphdr h skb) source
  end.


(** X13. Every path but accept stores the listening port in network byte
    order: the remote port for ACTIVE, the local port for PASSIVE. *)
Lemma lport_network_order p h m r :
  flow_direction_enum →
  is_accept_ret p = false →
  emitted_by p h m r →
  (direction r = FLOW_ACTIVE → lport r = remote_port_be p h m)
  ∧ (direction r = FLOW_PASSIVE → lport r = local_port_be p h m).
Proof.
  intros ((HU & HA & HP) & HUA & HUP & HAP) Hacc Hem.
  destruct p as [sk|ret|sk|sk flw4|sk skb]; try discriminate.
  - by apply tcp_v4_connect_silent in Hem.
  - apply tcp_v4_connect_ret_emitted in Hem
      as (sk & slot & Hsk & _ & _ & Hl & Hd & _).
    rewrite (u8_small _ HA) in Hd. simpl. rewrite Hsk, Hd, Hl.
    split; [done|]. intros; congruence.
  - apply ip_make_skb_emitted in Hem as [_ Hem]. simpl in *.
    destruct (udp_port_binding m !! _); destruct Hem as [Hd Hl];
      rewrite Hd, Hl, u8_small by done; split; try done; intros; congruence.
  - apply skb_consume_udp_emitted in Hem as [_ Hem]. simpl in *.
    destruct (udp_port_binding m !! _); destruct Hem as [Hd Hl];
      rewrite Hd, Hl, u8_small by done; split; try done; intros; congruence.
Qed.



(** *** Which maps a firing touches, and how *)

(** A run of the object: firings in the order the kernel makes them. *)
Fixpoint run (evs : list (probe * helpers)) (m : maps) : maps :=
  match evs with
  | [] => m
  | (p, h) :: evs' => run evs' (fire p h m)
  end.

Definition is_connect_probe (p : probe) : bool :=
  match p with
  | Tcp_v4_connect _ | Tcp_v4_connect_ret _ => true
  | _ => false
  end.

Lemma insert_flows_frame h pid0 sk lport0 d m :
  tcp_connect_sockets (insert_flows h pid0 sk lport0 d m)
    = tcp_connect_sockets m
  ∧ udp_port_binding (insert_flows h pid0 sk lport0 d m) = udp_port_binding m.
Proof. unfold insert_flows. by destruct (bpf_ringbuf_reserve h). Qed.

Lemma insert_udp_flows_frame h pid0 key m :
  tcp_connect_sockets (insert_udp_flows h pid0 key m) = tcp_connect_sockets m
  ∧ udp_port_binding (insert_udp_flows h pid0 key m) = udp_port_binding m.
Proof. unfold insert_udp_flows. by destruct (bpf_ringbuf_reserve h). Qed.

Lemma insert_flows_appends h pid0 sk lport0 d m :
  ∃ added, flows (insert_flows h pid0 sk lport0 d m) = flows m ++ added
    ∧ (length added ≤ 1)%nat.
Proof.
  unfold insert_flows. destruct (bpf_ringbuf_reserve h); simpl.
  - eexists [_]. split; [done|]. simpl. lia.
  - exists []. rewrite app_nil_r. split; [done|]. simpl. lia.
Qed.

Lemma insert_udp_flows_appends h pid0 key m :
  ∃ added, flows (insert_udp_flows h pid0 key m) = flows m ++ added
    ∧ (length added ≤ 1)%nat.
Proof.
  unfold insert_udp_flows. destruct (bpf_ringbuf_reserve h); simpl.
  - eexists [_]. split; [done|]. simpl. lia.
  - exists []. rewrite app_nil_r. split; [done|]. simpl. lia.
Qed.

Lemma fire_appends p h m :
  ∃ added, flows (fire p h m) = flows m ++ added ∧ (length added ≤ 1)%nat.
Proof.
  assert (Hnone : ∃ added : list flow,
            flows m = flows m ++ added ∧ (length added ≤ 1)%nat).
  { exists []. rewrite app_nil_r. split; [done|]. simpl. lia. }
  destruct p as [sk|ret|sk|sk flw4|sk skb]; simpl.
  - done.
  - unfold tcp_v4_connect_ret.
    destruct (tcp_connect_sockets m !! current_tid h); [|done].
    rewrite flows_set_tcp_connect_sockets.
    case_decide; [apply insert_flows_appends|done].
  - unfold inet_csk_accept_ret.
    case_decide; [done|apply insert_flows_appends].
  - apply insert_udp_flows_appends.
  - apply insert_udp_flows_appends.
Qed.

Lemma fire_udp_port_binding p h m :
  udp_port_binding (fire p h m) = udp_port_binding m.
Proof.
  destruct p as [sk|ret|sk|sk flw4|sk skb]; simpl.
  - done.
  - unfold tcp_v4_connect_ret.
    destruct (tcp_connect_sockets m !! current_tid h); [|done].
    simpl. case_decide; [apply insert_flows_frame|done].
  - unfold inet_csk_accept_ret. case_decide; [done|apply insert_flows_frame].
  - apply insert_udp_flows_frame.
  - apply insert_udp_flows_frame.
Qed.

Lemma fire_tcp_connect_sockets p h m :
  is_connect_probe p = false →
  tcp_connect_sockets (fire p h m) = tcp_connect_sockets m.
Proof.
  destruct p as [sk|ret|sk|sk flw4|sk skb]; simpl; try discriminate; intros _.
  - unfold inet_csk_accept_ret. case_decide; [done|apply insert_flows_frame].
  - apply insert_udp_flows_frame.
  - apply insert_udp_flows_frame.
Qed.

(** X1. The ring only grows, by at most one record per firing; what was
    submitted before stays where it was. *)
Theorem ring_append_only evs m :
  ∃ added, flows (run evs m) = flows m ++ added
    ∧ (length added ≤ length evs)%nat.
Proof.
  revert m. induction evs as [|[p h] evs IH]; intros m; simpl.
  - exists []. by rewrite app_nil_r.
  - destruct (IH (fire p h m)) as (added' & -> & Hlen').
    destruct (fire_appends p h m) as (added & -> & Hlen).
    exists (added ++ added'). rewrite <- app_assoc. split; [done|].
    rewrite length_app. lia.
Qed.

(** X2. None of the five kprobe and kretprobe programs writes
    [udp_port_binding] (they only look it up; the tracepoint programs,
    through port_binding.h, are its writers), and among the five only the
    two connect probes write [tcp_connect_sockets]. *)
Theorem probes_frame evs m :
  udp_port_binding (run evs m) = udp_port_binding m
  ∧ (Forall (λ ev, is_connect_probe ev.1 = false) evs →
     tcp_connect_sockets (run evs m) = tcp_connect_sockets m).
Proof.
  split.
  - revert m. induction evs as [|[p h] evs IH]; intros m; simpl; [done|].
    by rewrite IH, fire_udp_port_binding.
  - intros Hall. revert m.
    induction Hall as [|[p h] evs Hp _ IH]; intros m; simpl; [done|].
    by rewrite IH, fire_tcp_connect_sockets.
Qed.

(** X3. When a firing emits: the connect return probe needs the thread's
    entry, a zero return value and room in the ring; accept needs a socket
    and room; the UDP probes need room only; the connect entry probe never
    emits. *)
Theorem emission_conditions h m :
  (∀ sk, ¬ ∃ r, emitted_by (Tcp_v4_connect sk) h m r)
  ∧ (∀ ret, (∃ r, emitted_by (Tcp_v4_connect_ret ret) h m r)
       ↔ is_Some (tcp_connect_sockets m !! current_tid h) ∧ ret = 0
         ∧ is_Some (bpf_ringbuf_reserve h))
  ∧ (∀ sk, (∃ r, emitted_by (Inet_csk_accept_ret sk) h m r)
       ↔ sk ≠ 0 ∧ is_Some (bpf_ringbuf_reserve h))
  ∧ (∀ sk flw4, (∃ r, emitted_by (Ip_make_skb sk flw4) h m r)
       ↔ is_Some (bpf_ringbuf_reserve h))
  ∧ (∀ sk skb, (∃ r, emitted_by (Skb_consume_udp sk skb) h m r)
       ↔ is_Some (bpf_ringbuf_reserve h)).
Proof.
  split; [|split; [|split; [|split]]].
  - intros sk [r Hr]. by apply tcp_v4_connect_silent in Hr.
  - intros ret. split.
    + intros [r Hr]. apply tcp_v4_connect_ret_emitted in Hr
        as (sk & slot & Hsk & -> & Hres & _). rewrite Hsk, Hres. eauto.
    + intros ([sk Hsk] & -> & [slot Hres]).
      unfold emitted_by. simpl. unfold tcp_v4_connect_ret. rewrite Hsk.
      rewrite flows_set_tcp_connect_sockets, decide_True by done.
      unfold insert_flows. rewrite Hres. simpl. eauto.
  - intros sk. split.
    + intros [r Hr]. apply inet_csk_accept_ret_emitted in Hr
        as (slot & Hsk & Hres & _). rewrite Hres. eauto.
    + intros (Hsk & [slot Hres]).
      unfold emitted_by. simpl. unfold inet_csk_accept_ret.
      rewrite decide_False by done.
      unfold insert_flows. rewrite Hres. simpl. eauto.
  - intros sk flw4. split.
    + intros [r Hr]. unfold emitted_by in Hr. simpl in Hr.
      unfold ip_make_skb in Hr.
      by apply insert_udp_flows_emitted in Hr as [? _].
    + intros [slot Hres]. unfold emitted_by. simpl.
      unfold ip_make_skb, insert_udp_flows. rewrite Hres. simpl. eauto.
  - intros sk skb. split.
    + intros [r Hr]. unfold emitted_by in Hr. simpl in Hr.
      unfold skb_consume_udp in Hr.
      by apply insert_udp_flows_emitted in Hr as [? _].
    + intros [slot Hres]. unfold emitted_by. simpl.
      unfold skb_consume_udp, insert_udp_flows. rewrite Hres. simpl. eauto.
Qed.

(** *** Direction of every record *)

Definition direction_known (r : flow) : Prop :=
  (direction r = FLOW_ACTIVE ∨ direction r = FLOW_PASSIVE)
  ∧ direction r ≠ FLOW_UNKNOWN.

Lemma emitted_direction_known p h m r :
  flow_direction_enum → emitted_by p h m r → direction_known r.
Proof.
  intros ((HU & HA & HP) & HUA & HUP & HAP) Hem. unfold direction_known.
  destruct p as [sk|ret|sk|sk flw4|sk skb].
  - by apply tcp_v4_connect_silent in Hem.
  - apply tcp_v4_connect_ret_emitted in Hem
      as (sk & slot & _ & _ & _ & _ & Hd & _).
    rewrite Hd, u8_small by done. split; [by left|congruence].
  - apply inet_csk_accept_ret_emitted in Hem as (slot & _ & _ & _ & Hd & _).
    rewrite Hd, u8_small by done. split; [by right|congruence].
  - apply ip_make_skb_emitted in Hem as [_ Hem].
    destruct (udp_port_binding m !! _); destruct Hem as [Hd _];
      rewrite Hd, u8_small by done;
      (split; [by (left + right)|congruence]).
  - apply skb_consume_udp_emitted in Hem as [_ Hem].
    destruct (udp_port_binding m !! _); destruct Hem as [Hd _];
      rewrite Hd, u8_small by done;
      (split; [by (left + right)|congruence]).
Qed.

(** X4. Whatever the five programs do in whatever order, a ring that held
    only ACTIVE and PASSIVE records still does: none of them emits
    UNKNOWN. *)
Theorem run_direction_known evs m :
  flow_direction_enum →
  Forall direction_known (flows m) →
  Forall direction_known (flows (run evs m)).
Proof.
  intros Henum. revert m.
  induction evs as [|[p h] evs IH]; intros m Hm; simpl; [done|].
  apply IH. destruct (fire_appends p h m) as (added & Hfl & Hlen).
  rewrite Hfl. apply Forall_app. split; [done|].
  destruct added as [|r [|r' added]]; simpl in Hlen; [done| |lia].
  apply Forall_singleton. by apply (emitted_direction_known p h m).
Qed.

(** *** [bpf_htons] *)

(** On 16 bits the swap exchanges the two bytes. *)
Lemma bswap16_arith x :
  0 <= x < 2 ^ 16 → bswap16 x = (x mod 256) * 256 + x / 256.
Proof.
  intros Hx. unfold bswap16.
  change 255 with (Z.ones 8).
  rewrite !Z.land_ones, Z.shiftl_mul_pow2, Z.shiftr_div_pow2 by lia.
  change (2 ^ 8) with 256.
  assert (Hh : 0 <= x / 256 < 256).
  { split; [apply Z.div_pos; lia|apply Z.div_lt_upper_bound; lia]. }
  rewrite (Z.mod_small (x / 256)) by done.
  rewrite <- Z.lxor_lor, <- Z.add_nocarry_lxor; [done| |].
  all: apply Z.bits_inj'; intros n Hn; rewrite Z.land_spec, Z.bits_0;
    destruct (decide (n < 8)) as [Hlt|Hge];
    [ change 256 with (2 ^ 8); rewrite Z.mul_pow2_bits_low by lia; done
    | rewrite (Z.bits_above_log2 (x / 256)), andb_false_r; [done|lia|];
      destruct (decide (x / 256 = 0)) as [->|Hnz]; [simpl; lia|];
      apply Z.lt_le_trans with 8; [apply Z.log2_lt_pow2; lia|lia] ].
Qed.

Lemma bswap16_checked x :
  0 <= x < 2 ^ 16 → bswap16 (bswap16 x) = x ∧ 0 <= bswap16 x < 2 ^ 16.
Proof.
  intros Hx. change (2 ^ 16) with 65536 in *.
  pose proof (Z.mod_pos_bound x 256 ltac:(lia)) as Hl.
  assert (Hh : 0 <= x / 256 < 256).
  { split; [apply Z.div_pos; lia|apply Z.div_lt_upper_bound; lia]. }
  pose proof (Z.div_mod x 256 ltac:(lia)) as Hdm.
  assert (Hr : 0 <= bswap16 x < 65536) by (rewrite bswap16_arith by done; lia).
  split; [|done].
  rewrite (bswap16_arith (bswap16 x)) by done.
  rewrite (bswap16_arith x) by done.
  set (l := x mod 256) in *. set (h := x / 256) in *.
  replace (l * 256 + h) with (h + l * 256) by lia.
  rewrite Z.mod_add, Z.div_add by lia.
  rewrite (Z.mod_small h), (Z.div_small h) by lia.
  lia.
Qed.

Lemma u16_range x : 0 <= u16 x < 2 ^ 16.
Proof. unfold u16. apply Z.mod_pos_bound. lia. Qed.

Lemma u16_small x : 0 <= x < 2 ^ 16 → u16 x = x.
Proof. intros H. unfold u16. by apply Z.mod_small. Qed.

Lemma bpf_htons_involutive x : bpf_htons target (bpf_htons target x) = u16 x.
Proof.
  unfold bpf_htons. destruct target.
  - destruct (bswap16_checked (u16 x) (u16_range x)) as [Hinv Hr].
    rewrite (u16_small (bswap16 (u16 x))) by done. done.
  - apply u16_idemp.
Qed.

(** Converting a port to network byte order twice gives the port back,
    and the result always fits 16 bits, on either byte order. *)
Theorem bpf_htons_roundtrip x :
  bpf_htons target (bpf_htons target x) = u16 x
  ∧ 0 <= bpf_htons target x < 2 ^ 16.
Proof.
  split; [apply bpf_htons_involutive|].
  unfold bpf_htons. destruct target.
  - apply bswap16_checked, u16_range.
  - apply u16_range.
Qed.

(** X5. A bound UDP port is seen the same way in both directions: when the
    destination port of a received datagram is the network-order form of
    a socket's local port, the receive path looks up the key the send
    path looks up, and both store the same listening port and direction. *)
Theorem udp_send_receive_agree h h' sk sk' flw4 skb m r r' :
  read16 (mem_udphdr (memory h')) (skb_udphdr h' skb) dest
    = bpf_htons target
        (read16 (mem_sock (memory h)) sk (λ s, skc_num (__sk_common s))) →
  emitted_by (Ip_make_skb sk flw4) h m r →
  emitted_by (Skb_consume_udp sk' skb) h' m r' →
  udp_local_port_key (Skb_consume_udp sk' skb) h'
    = udp_local_port_key (Ip_make_skb sk flw4) h
  ∧ direction r' = direction r
  ∧ (is_Some (udp_port_binding m !! udp_local_port_key (Ip_make_skb sk flw4) h) →
     lport r' = lport r).
Proof.
  intros Hdest Hr Hr'.
  assert (Hkey : udp_local_port_key (Skb_consume_udp sk' skb) h'
                 = udp_local_port_key (Ip_make_skb sk flw4) h).
  { simpl. rewrite Hdest, bpf_htons_involutive. apply u16_read16. }
  apply ip_make_skb_emitted in Hr as [_ Hr].
  apply skb_consume_udp_emitted in Hr' as [_ Hr']. rewrite Hkey in Hr'.
  split; [done|].
  destruct (udp_port_binding m !! udp_local_port_key (Ip_make_skb sk flw4) h).
  - destruct Hr as [-> ->], Hr' as [-> ->]. split; [done|]. intros _. done.
  - destruct Hr as [-> _], Hr' as [-> _]. split; [done|].
    intros [? ?]. discriminate.
Qed.

(** *** The in-flight connect map *)




(** X7. Entry and return of one connect on a thread that had no entry, with
    room in the map: the in-flight map is back to what it was whatever
    connect returned, and when it returned 0 and the ring has room the
    record describes the socket the entry probe saw, as ACTIVE towards
    its [skc_dport]. *)
Theorem connect_then_return h h' sk ret m :
  current_tid h' = current_tid h →
  tcp_connect_sockets m !! current_tid h = None →
  (size (tcp_connect_sockets m) < MAX_ENTRIES)%nat →
  tcp_connect_sockets (tcp_v4_connect_ret h' ret (tcp_v4_connect h sk m))
    = tcp_connect_sockets m
  ∧ (ret = 0 → ∀ slot, bpf_ringbuf_reserve h' = Some slot →
     ∃ r, flows (tcp_v4_connect_ret h' ret (tcp_v4_connect h sk m))
            = flows m ++ [r]
       ∧ direction r = u8 FLOW_ACTIVE
       ∧ lport r = read16 (mem_sock (memory h')) sk
                     (λ s, skc_dport (__sk_common s))
       ∧ saddr r = read32 (mem_sock (memory h')) sk
                     (λ s, skc_rcv_saddr (__sk_common s))
       ∧ daddr r = read32 (mem_sock (memory h')) sk
                     (λ s, skc_daddr (__sk_common s))
       ∧ pid r = current_pid h').
Proof.
  intros Htid Hfree Hroom.
  assert (Hstored :
    tcp_connect_sockets (tcp_v4_connect h sk m)
    = <[current_tid h := sk]> (tcp_connect_sockets m)).
  { simpl. unfold bpf_map_update_elem. rewrite Hfree.
    by rewrite decide_True. }
  split.
  - rewrite tcp_v4_connect_ret_sockets, Hstored, Htid.
    rewrite delete_insert_eq. by apply delete_id.
  - intros -> slot Hslot. unfold tcp_v4_connect_ret.
    rewrite Hstored, Htid, lookup_insert_eq.
    rewrite flows_set_tcp_connect_sockets, decide_True by done.
    unfold insert_flows. rewrite Hslot. simpl.
    eexists. split; [done|]. simpl.
    by rewrite u16_read16.
Qed.

(** X8. With the map full and no entry for the thread, the entry probe
    cannot store the socket and the whole connect leaves no trace. *)
Theorem connect_unrecorded_when_full h h' sk ret m :
  current_tid h' = current_tid h →
  tcp_connect_sockets m !! current_tid h = None →
  (MAX_ENTRIES ≤ size (tcp_connect_sockets m))%nat →
  tcp_v4_connect_ret h' ret (tcp_v4_connect h sk m) = m.
Proof.
  intros Htid Hfree Hfull.
  assert (Hsame : tcp_v4_connect h sk m = m).
  { unfold tcp_v4_connect, set_tcp_connect_sockets, bpf_map_update_elem.
    rewrite Hfree, decide_False by lia. by destruct m. }
  rewrite Hsame. unfold tcp_v4_connect_ret. by rewrite Htid, Hfree.
Qed.

(** *** Addresses and bookkeeping fields *)

(** Local and remote address as a UDP probe finds them: source and
    destination of the route on the send path, destination and source of
    the IP header on the receive path. *)
Definition udp_local_addr (p : probe) (h : helpers) : Z :=
  match p with
  | Ip_make_skb _ flw4 => read32 (mem_flowi4 (memory h)) flw4 fl4_saddr
  | Skb_consume_udp _ skb =>
      read32 (mem_iphdr (memory h)) (skb_iphdr h skb) ip_daddr
  | _ => 0
  end.

Definition udp_remote_addr (p : probe) (h : helpers) : Z :=
  match p with
  | Ip_make_skb _ flw4 => read32 (mem_flowi4 (memory h)) flw4 fl4_daddr
  | Skb_consume_udp _ skb =>
      read32 (mem_iphdr (memory h)) (skb_iphdr h skb) ip_saddr
  | _ => 0
  end.

(** X9. A UDP record runs from the client to the listener: local to remote
    when ACTIVE, remote to local when PASSIVE. *)
Theorem udp_address_orientation p h m r :
  flow_direction_enum →
  is_udp_probe p = true →
  emitted_by p h m r →
  (direction r = FLOW_ACTIVE →
     saddr r = udp_local_addr p h ∧ daddr r = udp_remote_addr p h)
  ∧ (direction r = FLOW_PASSIVE →
     saddr r = udp_remote_addr p h ∧ daddr r = udp_local_addr p h).
Proof.
  intros ((HU & HA & HP) & HUA & HUP & HAP) Hudp Hem.
  destruct p as [sk|ret|sk|sk flw4|sk skb]; try discriminate;
    unfold emitted_by in Hem; simpl in Hem.
  - unfold ip_make_skb in Hem.
    apply insert_udp_flows_emitted in Hem as (_ & Hs & Hd & _ & Hdir & _).
    destruct (udp_port_binding m !! _); simpl in *;
      rewrite Hs, Hd, Hdir, u8_small by done;
      split; try done; intros; congruence.
  - unfold skb_consume_udp in Hem.
    apply insert_udp_flows_emitted in Hem as (_ & Hs & Hd & _ & Hdir & _).
    destruct (udp_port_binding m !! _); simpl in *;
      rewrite Hs, Hd, Hdir, u8_small by done;
      split; try done; intros; congruence.
Qed.

Lemma insert_flows_record h pid0 sk lport0 d m r :
  flows (insert_flows h pid0 sk lport0 d m) = flows m ++ [r] →
  ts_us r = u64 (bpf_ktime_get_ns h) / 1000
  ∧ pid r = pid0 ∧ task r = bpf_get_current_comm h
  ∧ saddr r = read32 (mem_sock (memory h)) sk
                (λ s, skc_rcv_saddr (__sk_common s))
  ∧ daddr r = read32 (mem_sock (memory h)) sk
                (λ s, skc_daddr (__sk_common s)).
Proof.
  unfold insert_flows. destruct (bpf_ringbuf_reserve h) as [slot|]; simpl.
  - intros H. apply app_inv_head in H. injection H as <-. done.
  - intros H. by apply no_emission_absurd in H.
Qed.

Lemma insert_udp_flows_record h pid0 key m r :
  flows (insert_udp_flows h pid0 key m) = flows m ++ [r] →
  ts_us r = u64 (bpf_ktime_get_ns h) / 1000
  ∧ pid r = pid0 ∧ task r = bpf_get_current_comm h.
Proof.
  unfold insert_udp_flows. destruct (bpf_ringbuf_reserve h) as [slot|]; simpl.
  - intros H. apply app_inv_head in H. injection H as <-. done.
  - intros H. by apply no_emission_absurd in H.
Qed.

Lemma current_pid_range h : 0 <= current_pid h < 2 ^ 32.
Proof.
  unfold current_pid, u64. rewrite Z.shiftr_div_pow2 by lia.
  pose proof (Z.mod_pos_bound (bpf_get_current_pid_tgid h) (2 ^ 64)) as Hb.
  split.
  - apply Z.div_pos; lia.
  - apply Z.div_lt_upper_bound; [lia|]. change (2 ^ 32 * 2 ^ 32) with (2 ^ 64).
    lia.
Qed.

(** X10. Every record, from whichever probe, is stamped with the process id
    (the high half of [pid_tgid], never the thread id), the command name
    of the current task and the kernel clock in microseconds. *)
Theorem emitted_bookkeeping p h m r :
  emitted_by p h m r →
  pid r = Z.shiftr (u64 (bpf_get_current_pid_tgid h)) 32
  ∧ 0 <= pid r < 2 ^ 32
  ∧ task r = bpf_get_current_comm h
  ∧ ts_us r = u64 (bpf_ktime_get_ns h) / 1000.
Proof.
  intros Hem.
  assert (Hrec : ts_us r = u64 (bpf_ktime_get_ns h) / 1000
                 ∧ pid r = current_pid h ∧ task r = bpf_get_current_comm h).
  { unfold emitted_by in Hem.
    destruct p as [sk|ret|sk|sk flw4|sk skb]; simpl in Hem.
    - by apply no_emission_absurd in Hem.
    - unfold tcp_v4_connect_ret in Hem.
      destruct (tcp_connect_sockets m !! current_tid h);
        [|by apply no_emission_absurd in Hem].
      rewrite flows_set_tcp_connect_sockets in Hem.
      case_decide; [|by apply no_emission_absurd in Hem].
      by apply insert_flows_record in Hem as (? & ? & ? & _).
    - unfold inet_csk_accept_ret in Hem.
      case_decide; [by apply no_emission_absurd in Hem|].
      by apply insert_flows_record in Hem as (? & ? & ? & _).
    - by apply insert_udp_flows_record in Hem.
    - by apply insert_udp_flows_record in Hem. }
  destruct Hrec as (Hts & Hpid & Htask).
  rewrite Hpid. split; [done|]. split; [apply current_pid_range|done].
Qed.

(** The socket a TCP probe reports on. *)
Definition tcp_sock (p : probe) (h : helpers) (m : maps) : Z :=
  match p with
  | Tcp_v4_connect_ret _ =>
      default 0 (tcp_connect_sockets m !! current_tid h)
  | Inet_csk_accept_ret sk => sk
  | _ => 0
  end.

(** X11. A TCP record always runs from the socket's local address to its
    remote address, ACTIVE or PASSIVE alike. *)
Theorem tcp_addresses p h m r :
  is_tcp_probe p = true →
  emitted_by p h m r →
  saddr r = read32 (mem_sock (memory h)) (tcp_sock p h m)
              (λ s, skc_rcv_saddr (__sk_common s))
  ∧ daddr r = read32 (mem_sock (memory h)) (tcp_sock p h m)
                (λ s, skc_daddr (__sk_common s)).
Proof.
  intros Htcp Hem. unfold emitted_by in Hem.
  destruct p as [sk|ret|sk|sk flw4|sk skb]; try discriminate; simpl in *.
  - by apply no_emission_absurd in Hem.
  - unfold tcp_v4_connect_ret in Hem.
    destruct (tcp_connect_sockets m !! current_tid h) as [sk|];
      [|by apply no_emission_absurd in Hem].
    rewrite flows_set_tcp_connect_sockets in Hem.
    case_decide; [|by apply no_emission_absurd in Hem].
    by apply insert_flows_record in Hem as (_ & _ & _ & ? & ?).
  - unfold inet_csk_accept_ret in Hem.
    case_decide; [by apply no_emission_absurd in Hem|].
    by apply insert_flows_record in Hem as (_ & _ & _ & ? & ?).
Qed.

End Probes.

(** *** A concrete host

    Little-endian target, enumerators 1, 2, 3; one socket at address 4096
    with local port 80 and remote port 9 (0x0900 as a [__be16] read on a
    little-endian machine), task 1234 / thread 1235 running "curl". *)

Definition FLOW_UNKNOWN0 : Z := 1.
Definition FLOW_ACTIVE0 : Z := 2.
Definition FLOW_PASSIVE0 : Z := 3.
Definition MAX_ENTRIES0 : nat := 1024.

Definition sock0 : sock :=
  {| __sk_common :=
       {| skc_daddr := 16777343; skc_rcv_saddr := 16777343;
          skc_dport := 2304; skc_num := 80 |} |}.

Definition kmem0 : kmem :=
  {| mem_sock := {[ 4096 := sock0 ]};
     mem_flowi4 := {[ 8192 := {| fl4_saddr := 16777343; fl4_daddr := 33554559 |} ]};
     mem_sk_buff := {[ 12288 := {| head := 16384; transport_header := 20;
                                   network_header := 0 |} ]};
     mem_udphdr := {[ 16404 := {| source := 2304; dest := 20480 |} ]};
     mem_iphdr := {[ 16384 := {| ip_saddr := 33554559; ip_daddr := 16777343 |} ]} |}.

Definition comm0 : list Z := [99; 117; 114; 108; 0; 0; 0; 0; 0; 0; 0; 0; 0; 0; 0; 0].

(** A region of a ring that has not wrapped yet: all zero. *)
Definition fresh_slot : flow :=
  {| ts_us := 0; saddr := 0; daddr := 0; lport := 0; direction := 0;
     l4_proto := 0; pid := 0; task := [] |}.

Definition helpers0 : helpers :=
  {| bpf_get_current_pid_tgid := 1234 * 2 ^ 32 + 1235;
     bpf_ktime_get_ns := 5000000;
     bpf_get_current_comm := comm0;
     bpf_ringbuf_reserve := Some fresh_slot;
     memory := kmem0 |}.

(** Thread 1235 is inside connect on the socket; no UDP port is bound. *)
Definition maps0 : maps :=
  {| tcp_connect_sockets := {[ 1235 := 4096 ]};
     udp_port_binding := ∅;
     flows := [] |}.

(** The same, with UDP port 80 bound. *)
Definition maps_bound80 : maps :=
  {| tcp_connect_sockets := {[ 1235 := 4096 ]};
     udp_port_binding := {[ 80 := 1 ]};
     flows := [] |}.

Definition fire0 : probe → helpers → maps → maps :=
  fire FLOW_ACTIVE0 FLOW_PASSIVE0 MAX_ENTRIES0 LittleEndian.

Definition connect_record : flow :=
  {| ts_us := 5000; saddr := 16777343; daddr := 16777343; lport := 2304;
     direction := 2; l4_proto := 0; pid := 1234; task := comm0 |}.

Definition accept_record : flow :=
  {| ts_us := 5000; saddr := 16777343; daddr := 16777343; lport := 80;
     direction := 3; l4_proto := 0; pid := 1234; task := comm0 |}.

Definition send_bound_record : flow :=
  {| ts_us := 5000; saddr := 33554559; daddr := 16777343; lport := 20480;
     direction := 3; l4_proto := 17; pid := 1234; task := comm0 |}.

Example fire_connect_ret :
  flows (fire0 (Tcp_v4_connect_ret 0) helpers0 maps0) = [connect_record].
Proof. vm_compute. reflexivity. Qed.

Example fire_accept_ret :
  flows (fire0 (Inet_csk_accept_ret 4096) helpers0 maps0) = [accept_record].
Proof. vm_compute. reflexivity. Qed.

Example fire_ip_make_skb_bound :
  flows (fire0 (Ip_make_skb 4096 8192) helpers0 maps_bound80)
  = [send_bound_record].
Proof. vm_compute. reflexivity. Qed.

Lemma tcp_direction_by_probe_witness :
  (direction connect_record = FLOW_ACTIVE0
     ↔ is_connect_ret (Tcp_v4_connect_ret 0) = true)
  ∧ (direction connect_record = FLOW_PASSIVE0
     ↔ is_accept_ret (Tcp_v4_connect_ret 0) = true)
  ∧ direction connect_record ≠ FLOW_UNKNOWN0.
Proof.
  apply (tcp_direction_by_probe FLOW_UNKNOWN0 FLOW_ACTIVE0 FLOW_PASSIVE0
           MAX_ENTRIES0 LittleEndian (Tcp_v4_connect_ret 0) helpers0 maps0
           connect_record).
  - unfold flow_direction_enum, FLOW_UNKNOWN0, FLOW_ACTIVE0, FLOW_PASSIVE0. lia.
  - reflexivity.
  - vm_compute. reflexivity.
Defined.

Lemma udp_direction_by_port_binding_witness :
  (is_Some (udp_port_binding maps_bound80
              !! udp_local_port_key LittleEndian (Ip_make_skb 4096 8192) helpers0) →
     direction send_bound_record = FLOW_PASSIVE0)
  ∧ (udp_port_binding maps_bound80
       !! udp_local_port_key LittleEndian (Ip_make_skb 4096 8192) helpers0 = None →
     direction send_bound_record = FLOW_ACTIVE0)
  ∧ (∀ (b : gmap Z Z) (st : Z),
       udp_port_binding maps_bound80
       = <[udp_local_port_key LittleEndian (Ip_make_skb 4096 8192) helpers0 := st]> b →
       direction send_bound_record = FLOW_PASSIVE0).
Proof.
  apply (udp_direction_by_port_binding FLOW_UNKNOWN0 FLOW_ACTIVE0 FLOW_PASSIVE0
           MAX_ENTRIES0 LittleEndian (Ip_make_skb 4096 8192) helpers0
           maps_bound80 send_bound_record).
  - unfold flow_direction_enum, FLOW_UNKNOWN0, FLOW_ACTIVE0, FLOW_PASSIVE0. lia.
  - reflexivity.
  - vm_compute. reflexivity.
Defined.

(** A connect that failed with -ECONNREFUSED. *)
Lemma tcp_v4_connect_ret_cleanup_witness :
  tcp_connect_sockets (tcp_v4_connect_ret FLOW_ACTIVE0 helpers0 (-111) maps0)
    !! current_tid helpers0 = None
  ∧ flows (tcp_v4_connect_ret FLOW_ACTIVE0 helpers0 (-111) maps0) = flows maps0.
Proof.
  destruct (tcp_v4_connect_ret_cleanup FLOW_ACTIVE0 helpers0 (-111) maps0)
    as (_ & Hgone & Hquiet).
  split; [exact Hgone|]. apply Hquiet. lia.
Defined.



(** A region of the ring that an earlier UDP record went through. *)
Definition helpers_reused : helpers :=
  {| bpf_get_current_pid_tgid := bpf_get_current_pid_tgid helpers0;
     bpf_ktime_get_ns := bpf_ktime_get_ns helpers0;
     bpf_get_current_comm := comm0;
     bpf_ringbuf_reserve := Some send_bound_record;
     memory := kmem0 |}.

(** C4. A successful connect on a fresh ring emits a record whose
    [l4_proto] is 0, and the accept path does the same; on a region that a
    UDP record went through before, the TCP record says 17. In neither
    case is the field 6. *)
Theorem tcp_record_l4_proto_unset :
  (∃ r, emitted_by FLOW_ACTIVE0 FLOW_PASSIVE0 MAX_ENTRIES0 LittleEndian
          (Tcp_v4_connect_ret 0) helpers0 maps0 r
        ∧ l4_proto r = 0 ∧ l4_proto r ≠ IPPROTO_TCP)
  ∧ (∃ r, emitted_by FLOW_ACTIVE0 FLOW_PASSIVE0 MAX_ENTRIES0 LittleEndian
            (Inet_csk_accept_ret 4096) helpers0 maps0 r
          ∧ l4_proto r = 0 ∧ l4_proto r ≠ IPPROTO_TCP)
  ∧ (∃ r, emitted_by FLOW_ACTIVE0 FLOW_PASSIVE0 MAX_ENTRIES0 LittleEndian
            (Tcp_v4_connect_ret 0) helpers_reused maps0 r
          ∧ l4_proto r = IPPROTO_UDP ∧ l4_proto r ≠ IPPROTO_TCP).
Proof.
  split; [|split].
  - exists connect_record. vm_compute. repeat split; discriminate.
  - exists accept_record. vm_compute. repeat split; discriminate.
  - eexists. split; [vm_compute; reflexivity|].
    vm_compute. split; [reflexivity|discriminate].
Qed.

(** *** The further properties on the concrete host *)

Definition recv_bound_record : flow :=
  {| ts_us := 5000; saddr := 33554559; daddr := 16777343; lport := 20480;
     direction := 3; l4_proto := 17; pid := 1234; task := comm0 |}.

(** No thread inside connect. *)
Definition maps_idle : maps :=
  {| tcp_connect_sockets := ∅; udp_port_binding := ∅; flows := [] |}.

(** Thread 1236 of the same process. *)
Definition helpers_other : helpers :=
  {| bpf_get_current_pid_tgid := 1234 * 2 ^ 32 + 1236;
     bpf_ktime_get_ns := 6000000;
     bpf_get_current_comm := comm0;
     bpf_ringbuf_reserve := Some fresh_slot;
     memory := kmem0 |}.

Definition run0 : list (probe * helpers) → maps → maps :=
  run FLOW_ACTIVE0 FLOW_PASSIVE0 MAX_ENTRIES0 LittleEndian.

Example run_three_probes :
  flows (run0 [(Tcp_v4_connect_ret 0, helpers0);
               (Inet_csk_accept_ret 4096, helpers0);
               (Skb_consume_udp 4096 12288, helpers0)] maps_bound80)
  = [connect_record; accept_record; recv_bound_record].
Proof. vm_compute. reflexivity. Qed.

Lemma probes_frame_witness :
  tcp_connect_sockets
    (run0 [(Inet_csk_accept_ret 4096, helpers0);
           (Ip_make_skb 4096 8192, helpers0)] maps_bound80)
  = tcp_connect_sockets maps_bound80.
Proof.
  destruct (probes_frame FLOW_ACTIVE0 FLOW_PASSIVE0 MAX_ENTRIES0 LittleEndian
              [(Inet_csk_accept_ret 4096, helpers0);
               (Ip_make_skb 4096 8192, helpers0)] maps_bound80) as [_ Hframe].
  apply Hframe. repeat constructor.
Defined.

Lemma run_direction_known_witness :
  Forall (direction_known FLOW_UNKNOWN0 FLOW_ACTIVE0 FLOW_PASSIVE0)
    (flows (run0 [(Tcp_v4_connect_ret 0, helpers0);
                  (Inet_csk_accept_ret 4096, helpers0)] maps0)).
Proof.
  apply (run_direction_known FLOW_UNKNOWN0 FLOW_ACTIVE0 FLOW_PASSIVE0
           MAX_ENTRIES0 LittleEndian).
  - unfold flow_direction_enum, FLOW_UNKNOWN0, FLOW_ACTIVE0, FLOW_PASSIVE0. lia.
  - simpl. constructor.
Defined.

Lemma udp_send_receive_agree_witness :
  udp_local_port_key LittleEndian (Skb_consume_udp 4096 12288) helpers0
    = udp_local_port_key LittleEndian (Ip_make_skb 4096 8192) helpers0
  ∧ direction recv_bound_record = direction send_bound_record
  ∧ (is_Some (udp_port_binding maps_bound80
                !! udp_local_port_key LittleEndian (Ip_make_skb 4096 8192) helpers0) →
     lport recv_bound_record = lport send_bound_record).
Proof.
  apply (udp_send_receive_agree FLOW_ACTIVE0 FLOW_PASSIVE0 MAX_ENTRIES0
           LittleEndian helpers0 helpers0 4096 4096 8192 12288 maps_bound80
           send_bound_record recv_bound_record).
  - vm_compute. reflexivity.
  - vm_compute. reflexivity.
  - vm_compute. reflexivity.
Defined.


Lemma connect_then_return_witness :
  tcp_connect_sockets
    (tcp_v4_connect_ret FLOW_ACTIVE0 helpers0 0
       (tcp_v4_connect MAX_ENTRIES0 helpers0 4096 maps_idle))
  = tcp_connect_sockets maps_idle.
Proof.
  destruct (connect_then_return FLOW_ACTIVE0 MAX_ENTRIES0 helpers0 helpers0
              4096 0 maps_idle) as [Hback _].
  - reflexivity.
  - reflexivity.
  - simpl. rewrite map_size_empty. unfold MAX_ENTRIES0. lia.
  - exact Hback.
Defined.

(** A map of one slot, taken by thread 1235: the connect of thread 1236
    goes unseen. *)
Lemma connect_unrecorded_when_full_witness :
  tcp_v4_connect_ret FLOW_ACTIVE0 helpers_other 0
    (tcp_v4_connect 1 helpers_other 4096 maps0)
  = maps0.
Proof.
  apply (connect_unrecorded_when_full FLOW_ACTIVE0 1 helpers_other
           helpers_other 4096 0 maps0).
  - reflexivity.
  - vm_compute. reflexivity.
  - simpl. rewrite map_size_singleton. lia.
Defined.

Lemma udp_address_orientation_witness :
  (direction send_bound_record = FLOW_ACTIVE0 →
     saddr send_bound_record = udp_local_addr (Ip_make_skb 4096 8192) helpers0
     ∧ daddr send_bound_record = udp_remote_addr (Ip_make_skb 4096 8192) helpers0)
  ∧ (direction send_bound_record = FLOW_PASSIVE0 →
     saddr send_bound_record = udp_remote_addr (Ip_make_skb 4096 8192) helpers0
     ∧ daddr send_bound_record = udp_local_addr (Ip_make_skb 4096 8192) helpers0).
Proof.
  apply (udp_address_orientation FLOW_UNKNOWN0 FLOW_ACTIVE0 FLOW_PASSIVE0
           MAX_ENTRIES0 LittleEndian (Ip_make_skb 4096 8192) helpers0
           maps_bound80 send_bound_record).
  - unfold flow_direction_enum, FLOW_UNKNOWN0, FLOW_ACTIVE0, FLOW_PASSIVE0. lia.
  - reflexivity.
  - vm_compute. reflexivity.
Defined.

Lemma emitted_bookkeeping_witness :
  pid connect_record = Z.shiftr (u64 (bpf_get_current_pid_tgid helpers0)) 32
  ∧ 0 <= pid connect_record < 2 ^ 32
  ∧ task connect_record = bpf_get_current_comm helpers0
  ∧ ts_us connect_record = u64 (bpf_ktime_get_ns helpers0) / 1000.
Proof.
  apply (emitted_bookkeeping FLOW_ACTIVE0 FLOW_PASSIVE0 MAX_ENTRIES0
           LittleEndian (Tcp_v4_connect_ret 0) helpers0 maps0 connect_record).
  vm_compute. reflexivity.
Defined.

Lemma tcp_addresses_witness :
  saddr accept_record
    = read32 (mem_sock (memory helpers0))
        (tcp_sock (Inet_csk_accept_ret 4096) helpers0 maps0)
        (λ s, skc_rcv_saddr (__sk_common s))
  ∧ daddr accept_record
    = read32 (mem_sock (memory helpers0))
        (tcp_sock (Inet_csk_accept_ret 4096) helpers0 maps0)
        (λ s, skc_daddr (__sk_common s)).
Proof.
  apply (tcp_addresses FLOW_ACTIVE0 FLOW_PASSIVE0 MAX_ENTRIES0 LittleEndian
           (Inet_csk_accept_ret 4096) helpers0 maps0 accept_record).
  - reflexivity.
  - vm_compute. reflexivity.
Defined.

Lemma udp_l4_proto_witness : l4_proto recv_bound_record = IPPROTO_UDP.
Proof.
  apply (udp_l4_proto FLOW_ACTIVE0 FLOW_PASSIVE0 MAX_ENTRIES0 LittleEndian
           (Skb_consume_udp 4096 12288) helpers0 maps_bound80
           recv_bound_record).
  - reflexivity.
  - vm_compute. reflexivity.
Defined.

Lemma lport_network_order_witness :
  (direction connect_record = FLOW_ACTIVE0 →
     lport connect_record
     = remote_port_be (Tcp_v4_connect_ret 0) helpers0 maps0)
  ∧ (direction connect_record = FLOW_PASSIVE0 →
     lport connect_record
     = local_port_be LittleEndian (Tcp_v4_connect_ret 0) helpers0 maps0).
Proof.
  apply (lport_network_order FLOW_UNKNOWN0 FLOW_ACTIVE0 FLOW_PASSIVE0
           MAX_ENTRIES0 LittleEndian (Tcp_v4_connect_ret 0) helpers0 maps0
           connect_record).
  - unfold flow_direction_enum, FLOW_UNKNOWN0, FLOW_ACTIVE0, FLOW_PASSIVE0. lia.
  - reflexivity.
  - vm_compute. reflexivity.
Defined.

End Bpf.

(** ** Shared by the two Go tracers *)

(** A Go call that returns [(value, error)]. *)
Inductive result (E A : Type) :=
  | Ok (a : A)
  | Err (e : E).
Arguments Ok {E A} a.
Arguments Err {E A} e.

(** ** tracer.go *)

Module Tracer.

(** [type FlowDirection uint8], [iota + 1]. *)
Definition FlowDirection := Z.
Definition FlowUnknown : FlowDirection := 1.
Definition FlowActive : FlowDirection := 2.
Definition FlowPassive : FlowDirection := 3.

(** [AggrFlowTuple], the key of both hash maps. *)
Record AggrFlowTuple := {
  t_saddr : Z;
  t_daddr : Z;
  t_lport : Z;
  t_direction : Z;
  t_l4_proto : Z
}.

#[global] Instance AggrFlowTuple_eq_dec : EqDecision AggrFlowTuple.
Proof. solve_decision. Defined.

#[global] Instance AggrFlowTuple_countable : Countable AggrFlowTuple.
Proof.
  refine (inj_countable'
    (λ t, (t_saddr t, t_daddr t, t_lport t, t_direction t, t_l4_proto t))
    (λ '(a, b, c, d, e),
       {| t_saddr := a; t_daddr := b; t_lport := c; t_direction := d;
          t_l4_proto := e |}) _).
  by intros [].
Defined.

(** [struct aggregated_flow], a value of the kernel's flows map, as it
    lies in the [values] array of [dumpAggrFlows]. [af_after_task] is no
    member of the struct: it is what memory holds behind the [task]
    array, up to the next NUL there. [C.GoString] takes a pointer, not an
    array, and reads on into these bytes when [task] holds no NUL. *)
Record aggregated_flow := {
  af_ts_us : Z;
  af_saddr : Z;
  af_daddr : Z;
  af_task : list Z;
  af_after_task : list Z;
  af_lport : Z;
  af_direction : Z;
  af_l4_proto : Z;
  af_pid : Z
}.

(** [struct aggregated_flow_stat], a value of the kernel's flow_stats map. *)
Record aggregated_flow_stat := {
  ts_us : Z;
  sent_bytes : Z;
  recv_bytes : Z
}.

(** [time.Time]: the zero value, or what [time.Unix] builds. *)
Inductive Time :=
  | Time_zero
  | Unix (sec nsec : Z).

Record AggrFlowStat := {
  Timestamp : Time;
  sentBytes : Z;
  recvBytes : Z
}.

(** [&AggrFlowStat{}] *)
Definition AggrFlowStat_zero : AggrFlowStat :=
  {| Timestamp := Time_zero; sentBytes := 0; recvBytes := 0 |}.

Record Flow := {
  SAddr : list Z;
  DAddr : list Z;
  ProcessName : list Z;
  LPort : Z;
  Direction : FlowDirection;
  LastPID : Z;
  L4Proto : Z;
  Stat : option AggrFlowStat      (* *AggrFlowStat, nil until merged *)
}.

Definition set_Stat (v : AggrFlowStat) (flow : Flow) : Flow :=
  {| SAddr := SAddr flow; DAddr := DAddr flow;
     ProcessName := ProcessName flow; LPort := LPort flow;
     Direction := Direction flow; LastPID := LastPID flow;
     L4Proto := L4Proto flow; Stat := Some v |}.

(** [C.GoString] on the memory that starts at its argument: the bytes
    before the first NUL. *)
Fixpoint GoString (cs : list Z) : list Z :=
  match cs with
  | [] => []
  | c :: cs' => if decide (c = 0) then [] else c :: GoString cs'
  end.

(** [TracerParam] *)
Record TracerParam := { Stats : bool }.

(** [Tracer]: the object, the stop channel (all that matters of it to
    [Close] is whether it was closed already), the stats fd and the batch
    size. *)
Record Tracer := {
  obj : Z;
  stopChan_closed : bool;
  statsFd : Z;
  batchSize : Z
}.

Section Package.

(** Enumerators of conntracer.h and two helpers of the package defined
    outside tracer.go, kept abstract. *)
Variables FLOW_UNKNOWN FLOW_ACTIVE FLOW_PASSIVE : Z.
Variable inetNtop : Z → list Z.
Variable ntohs : Z → Z.

(** Errors are what the batched map operation reports. *)
Variable error : Type.

Definition flowDirectionFrom (x : Z) : FlowDirection :=
  if decide (x = FLOW_UNKNOWN) then FlowUnknown
  else if decide (x = FLOW_ACTIVE) then FlowActive
  else if decide (x = FLOW_PASSIVE) then FlowPassive
  else FlowUnknown.

(** The [&Flow{...}] literal of [dumpAggrFlows]. *)
Definition new_Flow (v : aggregated_flow) : Flow :=
  {| SAddr := inetNtop (u32 (af_saddr v));
     DAddr := inetNtop (u32 (af_daddr v));
     ProcessName := GoString (af_task v ++ af_after_task v ++ [0]);
     LPort := u16 (af_lport v);
     Direction := flowDirectionFrom (af_direction v);
     LastPID := u32 (af_pid v);
     L4Proto := u8 (ntohs (u16 (af_l4_proto v)));
     Stat := None |}.

(** The [&AggrFlowStat{...}] literal of [dumpAggrFlowStats]. *)
Definition new_AggrFlowStat (stat : aggregated_flow_stat) : AggrFlowStat :=
  {| Timestamp := Unix (i64 (i64 (i64 (ts_us stat) * 1000) * 1000)) 0;
     sentBytes := u64 (sent_bytes stat);
     recvBytes := u64 (recv_bytes stat) |}.

(** What [dumpBpfMap] hands back: the first [nRead] slots of the key and
    value arrays, in the order the kernel filled them, or an error. *)
Definition drained (V : Type) : Type := result error (list (AggrFlowTuple * V)).

(** [for i := 0; i < nRead; i++ { m[keys[i]] = mk(values[i]) }] *)
Definition fill {V W : Type} (mk : V → W) (kvs : list (AggrFlowTuple * V))
    : gmap AggrFlowTuple W :=
  foldl (λ m kv, <[kv.1 := mk kv.2]> m) ∅ kvs.

Definition dumpAggrFlows (d : drained aggregated_flow)
    : result error (gmap AggrFlowTuple Flow) :=
  match d with
  | Err e => Err e
  | Ok kvs => Ok (fill new_Flow kvs)
  end.

Definition dumpAggrFlowStats (d : drained aggregated_flow_stat)
    : result error (gmap AggrFlowTuple AggrFlowStat) :=
  match d with
  | Err e => Err e
  | Ok kvs => Ok (fill new_AggrFlowStat kvs)
  end.

(** The merge loop of [DumpFlows], over the keys in the order [range]
    happens to visit them. *)
Definition merge (stats : gmap AggrFlowTuple AggrFlowStat)
    (visit : list (AggrFlowTuple * Flow)) : list Flow :=
  foldl
    (λ merged tf,
       merged ++ [match stats !! tf.1 with
                   | Some v => set_Stat v tf.2
                   | None => set_Stat AggrFlowStat_zero tf.2
                   end])
    [] visit.

(** [DumpFlows]. Go leaves two things open: the order in which [range]
    visits a map, and which error [errgroup.Wait] reports when both
    drainers fail. *)
Inductive DumpFlows_returns :
    drained aggregated_flow → drained aggregated_flow_stat →
    result error (list Flow) → Prop :=
  | DumpFlows_merged kvs svs flows stats visit :
      dumpAggrFlows (Ok kvs) = Ok flows →
      dumpAggrFlowStats (Ok svs) = Ok stats →
      visit ≡ₚ map_to_list flows →
      DumpFlows_returns (Ok kvs) (Ok svs) (Ok (merge stats visit))
  | DumpFlows_flows_failed e d :
      DumpFlows_returns (Err e) d (Err e)
  | DumpFlows_stats_failed d e :
      DumpFlows_returns d (Err e) (Err e).

(** One run of [DumpFlows]: [range] in the order of [map_to_list], the
    flows drainer reporting first. *)
Definition DumpFlows (df : drained aggregated_flow)
    (ds : drained aggregated_flow_stat) : result error (list Flow) :=
  match dumpAggrFlows df, dumpAggrFlowStats ds with
  | Err e, _ => Err e
  | Ok _, Err e => Err e
  | Ok flows, Ok stats => Ok (merge stats (map_to_list flows))
  end.

(** *** The polling loop *)

(** What [select] picks in one iteration of [pollFlows]: the stop
    channel, or a tick, on which the drain and then the callback answer. *)
Inductive event :=
  | Stop
  | Tick (dump : result error (list Flow)) (cb_err : option error).

Inductive action :=
  | Log (e : error)                 (* log.Println(err) *)
  | Callback (flows : list Flow).   (* cb(flows) *)

(** One tick of the loop body. *)
Definition tick (dump : result error (list Flow)) (cb_err : option error)
    : list action :=
  let '(flows, logged) :=
    match dump with
    | Ok flows => (flows, [])
    | Err e => ([], [Log e])        (* flows is nil *)
    end in
  logged ++ [Callback flows]
    ++ match cb_err with Some e => [Log e] | None => [] end.

(** [pollFlows] on the events [select] delivers: what it did, and whether
    it returned ([true]) or is back in [select] waiting ([false]). *)
Fixpoint pollFlows (evs : list event) : list action * bool :=
  match evs with
  | [] => ([], false)
  | Stop :: _ => ([], true)
  | Tick dump cb_err :: evs' =>
      let '(acts, returned) := pollFlows evs' in
      (tick dump cb_err ++ acts, returned)
  end.

(** *** The maps the two drainers build *)

Lemma fill_snoc {V W : Type} (mk : V → W) kvs kv :
  fill mk (kvs ++ [kv]) = <[kv.1 := mk kv.2]> (fill mk kvs).
Proof. unfold fill. by rewrite foldl_snoc. Qed.

(** A later slot of the arrays overwrites an earlier one with the same
    key. *)
Lemma fill_list_to_map {V W : Type} (mk : V → W) kvs :
  fill mk kvs = mk <$> (list_to_map (reverse kvs) : gmap AggrFlowTuple V).
Proof.
  induction kvs as [|kv kvs IH] using rev_ind.
  - unfold fill. simpl. by rewrite fmap_empty.
  - rewrite fill_snoc, IH, reverse_snoc. destruct kv as [k v]. simpl.
    by rewrite fmap_insert.
Qed.

Lemma fill_is_Some {V W : Type} (mk : V → W) kvs k :
  is_Some (fill mk kvs !! k) ↔ k ∈ kvs.*1.
Proof.
  rewrite fill_list_to_map, lookup_fmap, fmap_is_Some.
  rewrite <- elem_of_dom, dom_list_to_map_L, elem_of_list_to_set.
  by rewrite fmap_reverse, elem_of_reverse.
Qed.

Lemma fill_None {V W : Type} (mk : V → W) kvs k :
  fill mk kvs !! k = None ↔ k ∉ kvs.*1.
Proof. rewrite <- (fill_is_Some mk), eq_None_not_Some. done. Qed.

Lemma fill_NoDup {V W : Type} (mk : V → W) kvs k v :
  NoDup kvs.*1 → (k, v) ∈ kvs → fill mk kvs !! k = Some (mk v).
Proof.
  intros Hnd Hin. rewrite fill_list_to_map, lookup_fmap.
  rewrite (elem_of_list_to_map_1 _ k v); [done| |].
  - by rewrite fmap_reverse, reverse_Permutation.
  - by apply elem_of_reverse.
Qed.

Lemma fill_size {V W : Type} (mk : V → W) kvs :
  size (fill mk kvs) = length (remove_dups kvs.*1).
Proof.
  rewrite <- length_map_to_list, <- (length_fmap fst).
  apply Permutation_length, NoDup_Permutation.
  - apply NoDup_fst_map_to_list.
  - apply NoDup_remove_dups.
  - intros k. rewrite elem_of_remove_dups, <- (fill_is_Some mk).
    rewrite list_elem_of_fmap. split.
    + intros ([k' w] & -> & Hin). apply elem_of_map_to_list in Hin. eauto.
    + intros [w Hw]. exists (k, w). split; [done|].
      by apply elem_of_map_to_list.
Qed.

(** *** The merge *)

(** What the loop body makes of one visited entry. *)
Definition joined (stats : gmap AggrFlowTuple AggrFlowStat)
    (tf : AggrFlowTuple * Flow) : Flow :=
  match stats !! tf.1 with
  | Some v => set_Stat v tf.2
  | None => set_Stat AggrFlowStat_zero tf.2
  end.

Lemma merge_joined stats visit : merge stats visit = joined stats <$> visit.
Proof.
  unfold merge.
  enough (Hgen : ∀ acc,
    foldl (λ merged tf,
             merged ++ [match stats !! tf.1 with
                         | Some v => set_Stat v tf.2
                         | None => set_Stat AggrFlowStat_zero tf.2
                         end]) acc visit
    = acc ++ (joined stats <$> visit)) by apply (Hgen []).
  induction visit as [|tf visit IH]; intros acc; simpl.
  - by rewrite app_nil_r.
  - rewrite IH, <- app_assoc. done.
Qed.

Lemma merge_length stats visit : length (merge stats visit) = length visit.
Proof. by rewrite merge_joined, length_fmap. Qed.

(** [DumpFlows] is one of the runs the relation allows; in particular
    every call returns. *)
Lemma DumpFlows_run df ds : DumpFlows_returns df ds (DumpFlows df ds).
Proof.
  destruct df as [kvs|e]; [|constructor].
  destruct ds as [svs|e]; [|constructor].
  unfold DumpFlows. simpl. by econstructor.
Qed.

Lemma DumpFlows_returns_inv kvs svs res :
  DumpFlows_returns (Ok kvs) (Ok svs) res →
  ∃ visit, visit ≡ₚ map_to_list (fill new_Flow kvs)
    ∧ res = Ok (merge (fill new_AggrFlowStat svs) visit).
Proof.
  inversion 1 as [? ? flows stats visit Hf Hs Hperm| |]; subst.
  injection Hf as <-. injection Hs as <-. eauto.
Qed.

(** C6. When both drains succeed, [DumpFlows] returns a list; whatever
    list it returns holds exactly one Flow per key drained from the flows
    map, and the Stat of that Flow is the stat entry drained under the
    same key if there is one and an all-zero AggrFlowStat otherwise. *)
Theorem DumpFlows_joins_stats kvs svs :
  (∃ l, DumpFlows_returns (Ok kvs) (Ok svs) (Ok l))
  ∧ ∀ res, DumpFlows_returns (Ok kvs) (Ok svs) res →
      ∃ keyed : list (AggrFlowTuple * Flow),
        res = Ok keyed.*2
        ∧ NoDup keyed.*1
        ∧ (∀ k, k ∈ keyed.*1 ↔ k ∈ kvs.*1)
        ∧ ∀ k f, (k, f) ∈ keyed →
            (∃ f0, fill new_Flow kvs !! k = Some f0
               ∧ f = set_Stat (default AggrFlowStat_zero (Stat f)) f0)
            ∧ (∀ v, fill new_AggrFlowStat svs !! k = Some v → Stat f = Some v)
            ∧ (∀ sv, NoDup svs.*1 → (k, sv) ∈ svs →
                 Stat f = Some (new_AggrFlowStat sv))
            ∧ (k ∉ svs.*1 → Stat f = Some AggrFlowStat_zero).
Proof.
  split.
  { eexists. apply (DumpFlows_run (Ok kvs) (Ok svs)). }
  intros res (visit & Hperm & ->)%DumpFlows_returns_inv.
  set (stats := fill new_AggrFlowStat svs).
  exists ((λ tf, (tf.1, joined stats tf)) <$> visit).
  assert (Hfst : ((λ tf, (tf.1, joined stats tf)) <$> visit).*1 = visit.*1).
  { rewrite <- list_fmap_compose. by apply list_fmap_ext. }
  split; [|split; [|split]].
  - rewrite merge_joined, <- list_fmap_compose. f_equal.
  - rewrite Hfst, Hperm. apply NoDup_fst_map_to_list.
  - intros k. rewrite Hfst, Hperm, <- (fill_is_Some new_Flow).
    rewrite list_elem_of_fmap. split.
    + intros ([k' w] & -> & Hin). apply elem_of_map_to_list in Hin. eauto.
    + intros [w Hw]. exists (k, w). split; [done|].
      by apply elem_of_map_to_list.
  - intros k f ([k' f0] & [= -> ->] & Hin)%list_elem_of_fmap.
    rewrite Hperm in Hin. apply elem_of_map_to_list in Hin. simpl in *.
    assert (Hstat : Stat (joined stats (k', f0))
                    = Some (default AggrFlowStat_zero (stats !! k'))).
    { unfold joined. simpl. by destruct (stats !! k'). }
    split; [|split; [|split]].
    + exists f0. split; [done|]. rewrite Hstat. simpl.
      unfold joined. simpl. by destruct (stats !! k').
    + intros v Hv. by rewrite Hstat, Hv.
    + intros sv Hnd Hsv. rewrite Hstat.
      unfold stats. by rewrite (fill_NoDup _ _ _ _ Hnd Hsv).
    + intros Hk. rewrite Hstat.
      apply (fill_None new_AggrFlowStat) in Hk.
      unfold stats. by rewrite Hk.
Qed.

(** C10. The list [DumpFlows] returns is as long as there are distinct
    keys among the drained flows, whatever was drained from flow_stats;
    stat entries under other keys leave no trace in it. *)
Theorem DumpFlows_drops_unmatched_stats kvs svs l :
  DumpFlows_returns (Ok kvs) (Ok svs) (Ok l) →
  length l = length (remove_dups kvs.*1)
  ∧ (∀ svs' l', DumpFlows_returns (Ok kvs) (Ok svs') (Ok l') →
       length l' = length l)
  ∧ (∀ svs',
       (∀ k, k ∈ kvs.*1 →
          fill new_AggrFlowStat svs' !! k = fill new_AggrFlowStat svs !! k) →
       DumpFlows_returns (Ok kvs) (Ok svs') (Ok l)).
Proof.
  intros (visit & Hperm & [= ->])%DumpFlows_returns_inv.
  assert (Hlen : ∀ stats v, v ≡ₚ map_to_list (fill new_Flow kvs) →
            length (merge stats v) = length (remove_dups kvs.*1)).
  { intros stats v Hv.
    by rewrite merge_length, Hv, length_map_to_list, fill_size. }
  split; [by apply Hlen|split].
  - intros svs' l' (visit' & Hperm' & [= ->])%DumpFlows_returns_inv.
    by rewrite !Hlen.
  - intros svs' Hagree.
    replace (merge (fill new_AggrFlowStat svs) visit)
      with (merge (fill new_AggrFlowStat svs') visit).
    { by econstructor. }
    rewrite !merge_joined. apply list_fmap_ext.
    intros i [k f0] Hin%list_elem_of_lookup_2. unfold joined. simpl.
    rewrite Hagree; [done|].
    apply (fill_is_Some new_Flow). exists f0.
    rewrite Hperm in Hin. by apply elem_of_map_to_list in Hin.
Qed.

(** *** The polling loop *)

Definition is_Callback (a : action) : bool :=
  match a with Callback _ => true | Log _ => false end.

Lemma pollFlows_tick dump cb_err evs :
  pollFlows (Tick dump cb_err :: evs)
  = (tick dump cb_err ++ (pollFlows evs).1, (pollFlows evs).2).
Proof. simpl. by destruct (pollFlows evs). Qed.

Lemma pollFlows_returned evs : (pollFlows evs).2 = true ↔ Stop ∈ evs.
Proof.
  induction evs as [|ev evs IH].
  - simpl. split; [done|]. by intros ?%elem_of_nil.
  - destruct ev as [|dump cb_err].
    + simpl. split; [|done]. intros _. apply list_elem_of_here.
    + rewrite pollFlows_tick. simpl. rewrite IH. split.
      * intros ?. by apply list_elem_of_further.
      * intros [?|?]%elem_of_cons; [done|done].
Qed.

(** C7. A tick whose drain fails logs the error, hands the callback an
    empty list and goes on with the loop; a tick whose callback fails
    logs that and goes on as well; the loop returns exactly when the stop
    channel is picked. *)
Theorem pollFlows_survives_errors :
  (∀ e cb_err evs,
     pollFlows (Tick (Err e) cb_err :: evs)
     = (Log e :: Callback []
          :: match cb_err with Some e' => [Log e'] | None => [] end
          ++ (pollFlows evs).1,
        (pollFlows evs).2))
  ∧ (∀ dump e evs,
       pollFlows (Tick dump (Some e) :: evs)
       = (tick dump (Some e) ++ (pollFlows evs).1, (pollFlows evs).2)
       ∧ last (tick dump (Some e)) = Some (Log e))
  ∧ (∀ evs, (pollFlows evs).2 = true ↔ Stop ∈ evs).
Proof.
  split; [|split].
  - intros e cb_err evs. by rewrite pollFlows_tick.
  - intros dump e evs. split; [apply pollFlows_tick|].
    unfold tick. destruct dump as [flows|e0]; simpl; done.
  - apply pollFlows_returned.
Qed.

(** *** Decoding of one drained slot *)

(** X14. A flow is reported ACTIVE (PASSIVE) exactly when the kernel wrote
    [FLOW_ACTIVE] ([FLOW_PASSIVE]); [FLOW_UNKNOWN] and every byte that is
    no enumerator at all come out as [FlowUnknown]. *)
Theorem flowDirectionFrom_decodes x :
  FLOW_UNKNOWN ≠ FLOW_ACTIVE → FLOW_UNKNOWN ≠ FLOW_PASSIVE →
  FLOW_ACTIVE ≠ FLOW_PASSIVE →
  (flowDirectionFrom x = FlowActive ↔ x = FLOW_ACTIVE)
  ∧ (flowDirectionFrom x = FlowPassive ↔ x = FLOW_PASSIVE)
  ∧ (flowDirectionFrom x = FlowUnknown ↔ x ≠ FLOW_ACTIVE ∧ x ≠ FLOW_PASSIVE).
Proof.
  intros HUA HUP HAP. unfold flowDirectionFrom.
  unfold FlowActive, FlowPassive, FlowUnknown.
  repeat case_decide; subst; repeat split; intros; try done; try lia;
    try congruence; try tauto; naive_solver.
Qed.

Lemma GoString_no_NUL cs : 0 ∉ GoString cs.
Proof.
  induction cs as [|c cs IH]; simpl.
  - apply not_elem_of_nil.
  - case_decide; [apply not_elem_of_nil|].
    rewrite not_elem_of_cons. split; [congruence|done].
Qed.

Lemma GoString_prefix cs : GoString cs `prefix_of` cs.
Proof.
  induction cs as [|c cs IH]; simpl; [done|].
  case_decide; [apply prefix_nil|]. by apply prefix_cons.
Qed.

Lemma GoString_cut pre post : 0 ∉ pre → GoString (pre ++ 0 :: post) = pre.
Proof.
  induction pre as [|c pre IH]; simpl; intros Hpre.
  - done.
  - apply not_elem_of_cons in Hpre as [Hc Hpre].
    rewrite decide_False by congruence. by rewrite IH.
Qed.

Lemma GoString_all cs : 0 ∉ cs → GoString cs = cs.
Proof.
  induction cs as [|c cs IH]; simpl; intros Hcs; [done|].
  apply not_elem_of_cons in Hcs as [Hc Hcs].
  rewrite decide_False by congruence. by rewrite IH.
Qed.

Lemma GoString_app pre cs : 0 ∉ pre → GoString (pre ++ cs) = pre ++ GoString cs.
Proof.
  induction pre as [|c pre IH]; simpl; intros Hpre; [done|].
  apply not_elem_of_cons in Hpre as [Hc Hpre].
  rewrite decide_False by congruence. by rewrite IH.
Qed.

(** A NUL at the end of the memory changes nothing before it. *)
Lemma GoString_terminated cs : GoString (cs ++ [0]) = GoString cs.
Proof.
  induction cs as [|c cs IH]; simpl; [done|].
  case_decide; [done|]. by rewrite IH.
Qed.

(** The process name is the task's command up to, and without, its first
    NUL: it never contains a NUL, and it is the whole array only when the
    array has none. *)
Theorem GoString_first_NUL cs :
  (0 ∉ GoString cs)
  ∧ (GoString cs `prefix_of` cs)
  ∧ (0 ∉ cs → GoString cs = cs)
  ∧ (∀ pre post, cs = pre ++ 0 :: post → 0 ∉ pre → GoString cs = pre).
Proof.
  split; [apply GoString_no_NUL|]. split; [apply GoString_prefix|].
  split; [apply GoString_all|].
  intros pre post -> Hpre. by apply GoString_cut.
Qed.

(** X15. Whatever bytes the kernel slot holds, the decoded flow has a
    process name without NUL, a port of 16 bits, a pid of 32, a protocol
    of 8, one of the three Go directions, and no statistics yet. When the
    task array holds a NUL, the name is the array up to its first NUL,
    whatever memory holds behind the array. When it holds none, the name
    does not stop at the end of the array: it is the whole array followed
    by the bytes behind it, up to the first NUL there. *)
Theorem new_Flow_decoded v :
  (0 ∉ ProcessName (new_Flow v))
  ∧ (∀ pre post, af_task v = pre ++ 0 :: post → 0 ∉ pre →
       ProcessName (new_Flow v) = pre)
  ∧ (0 ∉ af_task v →
       ProcessName (new_Flow v) = af_task v ++ GoString (af_after_task v))
  ∧ 0 <= LPort (new_Flow v) < 2 ^ 16
  ∧ 0 <= LastPID (new_Flow v) < 2 ^ 32
  ∧ 0 <= L4Proto (new_Flow v) < 2 ^ 8
  ∧ Direction (new_Flow v) ∈ [FlowUnknown; FlowActive; FlowPassive]
  ∧ Stat (new_Flow v) = None.
Proof.
  simpl. split; [apply GoString_no_NUL|].
  split; [intros pre post -> Hpre; rewrite <- app_assoc; by apply GoString_cut|].
  split; [intros Htask; by rewrite GoString_app, GoString_terminated|].
  split; [apply Z.mod_pos_bound; lia|].
  split; [apply Z.mod_pos_bound; lia|].
  split; [apply Z.mod_pos_bound; lia|].
  split; [|done]. unfold flowDirectionFrom.
  repeat case_decide; set_solver.
Qed.

Lemma i64_small x : - 2 ^ 63 <= x < 2 ^ 63 → i64 x = x.
Proof.
  intros Hx. unfold i64, signed.
  change (2 ^ (64 - 1)) with (2 ^ 63).
  destruct (decide (0 <= x)) as [Hpos|Hneg].
  - rewrite Z.mod_small by lia.
    destruct (Z.ltb_spec x (2 ^ 63)); lia.
  - replace (x mod 2 ^ 64) with (x + 2 ^ 64).
    + destruct (Z.ltb_spec (x + 2 ^ 64) (2 ^ 63)); lia.
    + apply Z.mod_unique with (q := -1); lia.
Qed.

(** X16. The kernel's microsecond stamp is multiplied by 1000 twice and handed
    to [time.Unix] as seconds. Below 9223372036854 microseconds (some 106
    days of uptime) nothing wraps; the byte counters are taken over as
    they are. *)
Theorem new_AggrFlowStat_no_wrap stat :
  0 <= ts_us stat < 9223372036854 →
  0 <= sent_bytes stat < 2 ^ 64 →
  0 <= recv_bytes stat < 2 ^ 64 →
  new_AggrFlowStat stat
  = {| Timestamp := Unix (ts_us stat * 1000000) 0;
       sentBytes := sent_bytes stat;
       recvBytes := recv_bytes stat |}.
Proof.
  intros Hts Hsent Hrecv. unfold new_AggrFlowStat.
  rewrite (i64_small (ts_us stat)) by lia.
  rewrite (i64_small (ts_us stat * 1000)) by lia.
  rewrite (i64_small (ts_us stat * 1000 * 1000)) by lia.
  unfold u64. rewrite !Z.mod_small by done.
  f_equal. f_equal. lia.
Qed.

(** X17. When the kernel hands the same key back in two slots, the later slot
    is the one the maps keep. *)
Theorem dump_last_slot_wins
    (l1 : list (AggrFlowTuple * aggregated_flow)) k v l2
    (s1 : list (AggrFlowTuple * aggregated_flow_stat)) sv s2 :
  k ∉ l2.*1 → k ∉ s2.*1 →
  (∀ flows, dumpAggrFlows (Ok (l1 ++ (k, v) :: l2)) = Ok flows →
     flows !! k = Some (new_Flow v))
  ∧ (∀ stats, dumpAggrFlowStats (Ok (s1 ++ (k, sv) :: s2)) = Ok stats →
       stats !! k = Some (new_AggrFlowStat sv)).
Proof.
  assert (Hlast : ∀ (V W : Type) (mk : V → W) l1 (v : V) l2,
            k ∉ l2.*1 → fill mk (l1 ++ (k, v) :: l2) !! k = Some (mk v)).
  { intros V W mk l v0 l' Hk. rewrite fill_list_to_map, lookup_fmap.
    rewrite reverse_app, reverse_cons, <- app_assoc.
    rewrite (list_to_map_app (reverse l')), lookup_union_r.
    - simpl. by rewrite lookup_insert_eq.
    - apply not_elem_of_list_to_map_1.
      by rewrite fmap_reverse, elem_of_reverse. }
  intros Hl2 Hs2. split.
  - intros flows [= <-]. by apply Hlast.
  - intros stats [= <-]. by apply Hlast.
Qed.

(** *** What [DumpFlows] can return *)

Definition is_Ok {E A : Type} (r : result E A) : Prop :=
  match r with Ok _ => True | Err _ => False end.

(** X18. [DumpFlows] returns a list only when both drains worked, and
    otherwise the error of a drain that failed. *)
Theorem DumpFlows_errors df ds res :
  DumpFlows_returns df ds res →
  (is_Ok res ↔ is_Ok df ∧ is_Ok ds)
  ∧ (∀ e, res = Err e → df = Err e ∨ ds = Err e).
Proof.
  inversion 1; subst; simpl.
  - split; [tauto|]. intros e [=].
  - split; [tauto|]. intros e' [= ->]. by left.
  - split; [tauto|]. intros e' [= ->]. by right.
Qed.

(** *** The callback *)

(** The lists handed to the callback, in the order of the calls. *)
Definition callbacks (acts : list action) : list (list Flow) :=
  omap (λ a, match a with Callback flows => Some flows | Log _ => None end)
       acts.

(** The errors logged, in order. *)
Definition logged (acts : list action) : list error :=
  omap (λ a, match a with Log e => Some e | Callback _ => None end) acts.

(** The ticks [select] delivers before it first picks the stop channel. *)
Fixpoint ticks_before_stop (evs : list event)
    : list (result error (list Flow) * option error) :=
  match evs with
  | Tick dump cb_err :: evs' => (dump, cb_err) :: ticks_before_stop evs'
  | _ => []
  end.

(** [Start]: the initializer of the port-binding map first, the loop
    only if it succeeded. *)
Definition Start (init : option error) (evs : list event)
    : option error * list action :=
  match init with
  | Some e => (Some e, [])
  | None => (None, (pollFlows evs).1)
  end.

Lemma callbacks_tick dump cb_err :
  callbacks (tick dump cb_err)
  = [match dump with Ok flows => flows | Err _ => [] end].
Proof. unfold tick. by destruct dump, cb_err. Qed.

Lemma callbacks_app a1 a2 : callbacks (a1 ++ a2) = callbacks a1 ++ callbacks a2.
Proof. unfold callbacks. apply omap_app. Qed.

(** X20. The callback runs exactly once for every tick up to the stop signal,
    in tick order, with that tick's flows (none if the drain failed), and
    never after the stop; it does not run at all when the port-binding
    initializer fails. *)
Theorem Start_callbacks init evs :
  callbacks (Start init evs).2
  = match init with
    | Some _ => []
    | None =>
        (λ t, match t.1 with Ok flows => flows | Err _ => [] end)
          <$> ticks_before_stop evs
    end.
Proof.
  destruct init as [e|]; simpl; [done|].
  induction evs as [|[|dump cb_err] evs IH]; simpl; [done|done|].
  destruct (pollFlows evs) as [acts ret] eqn:Hpoll. simpl in *.
  rewrite callbacks_app, callbacks_tick, IH. done.
Qed.

(** X21. What the loop logs is what failed, in order: on each tick the error
    of the drain, then the error of the callback. *)
Theorem pollFlows_logged evs :
  logged (pollFlows evs).1
  = ticks_before_stop evs ≫=
      (λ t, match t.1 with Ok _ => [] | Err e => [e] end
            ++ match t.2 with Some e => [e] | None => [] end).
Proof.
  induction evs as [|[|dump cb_err] evs IH]; simpl; [done|done|].
  destruct (pollFlows evs) as [acts ret] eqn:Hpoll. simpl in *.
  unfold logged in *. rewrite omap_app, IH. f_equal.
  unfold tick. by destruct dump, cb_err.
Qed.

(** *** Construction and teardown *)

(** What the host answers to the calls [NewTracer] makes. *)
Record system := {
  bumpMemlockRlimit : option error;
  conntracer_bpf__open_and_load : Z;           (* the object, 0 for nil *)
  conntracer_bpf__attach : Z;                  (* C int *)
  enableBPFStats : result error Z
}.

Inductive NewTracer_error :=
  | RlimitFailed (e : error)
  | OpenFailed               (* "failed to open and load BPF object" *)
  | AttachFailed (cerr : Z)  (* "failed to attach BPF programs: ..." *)
  | StatsFailed (e : error).

Definition defaultFlowMapOpsBatchSize : Z := 10.

Definition NewTracer (sys : system) (param : TracerParam)
    : result NewTracer_error Tracer :=
  match bumpMemlockRlimit sys with
  | Some e => Err (RlimitFailed e)
  | None =>
      let obj0 := conntracer_bpf__open_and_load sys in
      if decide (obj0 = 0) then Err OpenFailed
      else
        let cerr := conntracer_bpf__attach sys in
        if decide (cerr ≠ 0) then Err (AttachFailed cerr)
        else
          let t := {| obj := obj0; stopChan_closed := false; statsFd := 0;
                      batchSize := defaultFlowMapOpsBatchSize |} in
          if Stats param then
            match enableBPFStats sys with
            | Err e => Err (StatsFailed e)
            | Ok fd => Ok {| obj := obj t; stopChan_closed := stopChan_closed t;
                             statsFd := fd; batchSize := batchSize t |}
            end
          else Ok t
  end.

(** X22. [NewTracer] hands out a tracer exactly when the rlimit was raised,
    the object loaded and attached and, if asked for, the statistics
    enabled; the tracer then owns that object, has its stop channel open,
    batch size 10, and a stats fd only if statistics were asked for. *)
Theorem NewTracer_succeeds_iff sys param t :
  NewTracer sys param = Ok t
  ↔ bumpMemlockRlimit sys = None
    ∧ conntracer_bpf__open_and_load sys ≠ 0
    ∧ conntracer_bpf__attach sys = 0
    ∧ obj t = conntracer_bpf__open_and_load sys
    ∧ stopChan_closed t = false
    ∧ batchSize t = 10
    ∧ (if Stats param then enableBPFStats sys = Ok (statsFd t)
       else statsFd t = 0).
Proof.
  unfold NewTracer. split.
  - destruct (bumpMemlockRlimit sys); [done|].
    case_decide as Hobj; [done|]. case_decide as Hatt; [done|].
    assert (conntracer_bpf__attach sys = 0) by (destruct (decide (conntracer_bpf__attach sys = 0)); [done|by destruct Hatt]).
    destruct (Stats param).
    + destruct (enableBPFStats sys) as [fd|e]; [|done].
      intros [= <-]. simpl. done.
    + intros [= <-]. simpl. done.
  - intros (-> & Hobj & Hatt & Ho & Hc & Hb & Hstats).
    rewrite decide_False by done. rewrite decide_False by lia.
    destruct t as [o c fd b]. simpl in *. subst.
    destruct (Stats param).
    + by rewrite Hstats.
    + by subst.
Qed.

(** [Close] of the aggregating tracer, as the calls it makes. *)
Inductive call :=
  | close_stopChan
  | syscall_Close (fd : Z)
  | conntracer_bpf__destroy (obj : Z)
  | panic.                   (* close of closed channel *)

Definition Close (t : Tracer) : list call :=
  if stopChan_closed t then [panic]
  else
    [close_stopChan]
    ++ (if decide (statsFd t ≠ 0) then [syscall_Close (statsFd t)] else [])
    ++ [conntracer_bpf__destroy (obj t)].

(** X23. Closing a tracer that [NewTracer] built releases what [NewTracer]
    acquired: the stats fd first, when statistics were enabled and the fd
    is not 0, and then the object it loaded. *)
Theorem NewTracer_then_Close sys param t :
  NewTracer sys param = Ok t →
  Close t
  = close_stopChan
    :: match Stats param, enableBPFStats sys with
       | true, Ok fd => if decide (fd ≠ 0) then [syscall_Close fd] else []
       | _, _ => []
       end
    ++ [conntracer_bpf__destroy (conntracer_bpf__open_and_load sys)].
Proof.
  intros Hnew. unfold NewTracer in Hnew.
  destruct (bumpMemlockRlimit sys); [done|].
  case_decide as Hobj; [done|]. case_decide as Hatt; [done|].
  destruct (Stats param).
  - destruct (enableBPFStats sys) as [fd|e]; [|done].
    injection Hnew as <-. unfold Close. simpl. done.
  - injection Hnew as <-. unfold Close. simpl.
    by destruct (enableBPFStats sys).
Qed.

End Package.

Arguments Stop {error}.
Arguments Tick {error} dump cb_err.
Arguments Log {error} e.
Arguments Callback {error} flows.
Arguments tick {error} dump cb_err.
Arguments pollFlows {error} evs.
Arguments callbacks {error} acts.
Arguments logged {error} acts.
Arguments ticks_before_stop {error} evs.
Arguments Start {error} init evs.
Arguments bumpMemlockRlimit {error} s.
Arguments conntracer_bpf__open_and_load {error} s.
Arguments conntracer_bpf__attach {error} s.
Arguments enableBPFStats {error} s.
Arguments NewTracer {error} sys param.

(** *** One tick on a concrete host

    Three aggregated flows were drained, and two stat entries: one for
    the first flow, one under a key no drained flow has. *)

Definition inetNtop0 (a : Z) : list Z :=
  [Z.land a 255; Z.land (Z.shiftr a 8) 255; Z.land (Z.shiftr a 16) 255;
   Z.land (Z.shiftr a 24) 255].

Definition ntohs0 (x : Z) : Z := Bpf.bswap16 (u16 x).

Definition tuple_ssh : AggrFlowTuple :=
  {| t_saddr := 16777343; t_daddr := 33554559; t_lport := 22;
     t_direction := 3; t_l4_proto := 6 |}.
Definition tuple_dns : AggrFlowTuple :=
  {| t_saddr := 16777343; t_daddr := 134744072; t_lport := 53;
     t_direction := 2; t_l4_proto := 17 |}.
Definition tuple_gone : AggrFlowTuple :=
  {| t_saddr := 16777343; t_daddr := 16777343; t_lport := 8080;
     t_direction := 2; t_l4_proto := 6 |}.

Definition value_of (t : AggrFlowTuple) (comm : list Z) (p : Z) : aggregated_flow :=
  {| af_ts_us := 5000; af_saddr := t_saddr t; af_daddr := t_daddr t;
     af_task := comm; af_after_task := []; af_lport := t_lport t; af_direction := t_direction t;
     af_l4_proto := t_l4_proto t; af_pid := p |}.

Definition drained_flows0 : list (AggrFlowTuple * aggregated_flow) :=
  [(tuple_ssh, value_of tuple_ssh [115; 115; 104; 100; 0; 0] 700);
   (tuple_dns, value_of tuple_dns [100; 105; 103; 0; 0; 0] 812)].

Definition drained_stats0 : list (AggrFlowTuple * aggregated_flow_stat) :=
  [(tuple_ssh, {| ts_us := 7; sent_bytes := 2048; recv_bytes := 512 |});
   (tuple_gone, {| ts_us := 9; sent_bytes := 1; recv_bytes := 1 |})].

Definition flow_ssh : Flow :=
  {| SAddr := [127; 0; 0; 1]; DAddr := [127; 0; 0; 2];
     ProcessName := [115; 115; 104; 100]; LPort := 22;
     Direction := FlowPassive; LastPID := 700; L4Proto := 0;
     Stat := Some {| Timestamp := Unix 7000000 0; sentBytes := 2048;
                     recvBytes := 512 |} |}.

Definition flow_dns : Flow :=
  {| SAddr := [127; 0; 0; 1]; DAddr := [8; 8; 8; 8];
     ProcessName := [100; 105; 103]; LPort := 53;
     Direction := FlowActive; LastPID := 812; L4Proto := 0;
     Stat := Some AggrFlowStat_zero |}.

Definition DumpFlows0 :
    drained Z aggregated_flow → drained Z aggregated_flow_stat →
    result Z (list Flow) :=
  DumpFlows 1 2 3 inetNtop0 ntohs0 Z.

Example DumpFlows0_merged :
  ∃ l, DumpFlows0 (Ok drained_flows0) (Ok drained_stats0) = Ok l
       ∧ l ≡ₚ [flow_ssh; flow_dns].
Proof.
  eexists. split; [vm_compute; reflexivity|].
  first [reflexivity | apply Permutation_swap].
Qed.

Definition dumped0 : list Flow := [flow_dns; flow_ssh].

Example DumpFlows0_value :
  DumpFlows0 (Ok drained_flows0) (Ok drained_stats0) = Ok dumped0.
Proof. vm_compute. reflexivity. Qed.

Lemma DumpFlows0_returns :
  DumpFlows_returns 1 2 3 inetNtop0 ntohs0 Z
    (Ok drained_flows0) (Ok drained_stats0) (Ok dumped0).
Proof. rewrite <- DumpFlows0_value. apply DumpFlows_run. Qed.

Lemma DumpFlows_joins_stats_witness :
  ∃ keyed : list (AggrFlowTuple * Flow),
    Ok (E := Z) dumped0 = Ok keyed.*2
    ∧ NoDup keyed.*1
    ∧ (∀ k, k ∈ keyed.*1 ↔ k ∈ drained_flows0.*1)
    ∧ ∀ k f, (k, f) ∈ keyed →
        (∃ f0, fill (new_Flow 1 2 3 inetNtop0 ntohs0) drained_flows0 !! k
                 = Some f0
           ∧ f = set_Stat (default AggrFlowStat_zero (Stat f)) f0)
        ∧ (∀ v, fill new_AggrFlowStat drained_stats0 !! k = Some v →
             Stat f = Some v)
        ∧ (∀ sv, NoDup drained_stats0.*1 → (k, sv) ∈ drained_stats0 →
             Stat f = Some (new_AggrFlowStat sv))
        ∧ (k ∉ drained_stats0.*1 → Stat f = Some AggrFlowStat_zero).
Proof.
  destruct (DumpFlows_joins_stats 1 2 3 inetNtop0 ntohs0 Z
              drained_flows0 drained_stats0) as [_ Hjoin].
  apply Hjoin. rewrite <- DumpFlows0_value. apply DumpFlows_run.
Defined.

Lemma DumpFlows_drops_unmatched_stats_witness :
  length dumped0 = length (remove_dups drained_flows0.*1)
  ∧ (∀ svs' l',
       DumpFlows_returns 1 2 3 inetNtop0 ntohs0 Z
         (Ok drained_flows0) (Ok svs') (Ok l') →
       length l' = length dumped0)
  ∧ (∀ svs',
       (∀ k, k ∈ drained_flows0.*1 →
          fill new_AggrFlowStat svs' !! k
          = fill new_AggrFlowStat drained_stats0 !! k) →
       DumpFlows_returns 1 2 3 inetNtop0 ntohs0 Z
         (Ok drained_flows0) (Ok svs') (Ok dumped0)).
Proof.
  apply (DumpFlows_drops_unmatched_stats 1 2 3 inetNtop0 ntohs0 Z
           drained_flows0 drained_stats0 dumped0).
  rewrite <- DumpFlows0_value. apply DumpFlows_run.
Defined.

(** A drain that fails on the first tick, a callback that fails on the
    second, then the stop signal. *)
Example pollFlows_run :
  pollFlows (Tick (Err 7) None :: Tick (Ok dumped0) (Some 9) :: Stop
               :: Tick (Ok dumped0) None :: [])
  = ([Log 7; Callback []; Callback dumped0; Log 9], true).
Proof. reflexivity. Qed.

(** *** The further properties on the concrete host *)

Lemma flowDirectionFrom_decodes_witness :
  (flowDirectionFrom 1 2 3 7 = FlowActive ↔ 7 = 2)
  ∧ (flowDirectionFrom 1 2 3 7 = FlowPassive ↔ 7 = 3)
  ∧ (flowDirectionFrom 1 2 3 7 = FlowUnknown ↔ 7 ≠ 2 ∧ 7 ≠ 3).
Proof. apply (flowDirectionFrom_decodes 1 2 3 7); lia. Defined.

Lemma GoString_first_NUL_witness :
  GoString [115; 115; 104; 100; 0; 0] = [115; 115; 104; 100].
Proof.
  destruct (GoString_first_NUL [115; 115; 104; 100; 0; 0])
    as (_ & _ & _ & Hcut).
  apply (Hcut [115; 115; 104; 100] [0]); [reflexivity|].
  rewrite !not_elem_of_cons. repeat split; try lia. apply not_elem_of_nil.
Defined.

(** A slot whose task array is full, without NUL: the name runs on into
    the byte behind the array. *)
Definition value_unterminated : aggregated_flow :=
  {| af_ts_us := 5000; af_saddr := 16777343; af_daddr := 33554559;
     af_task := [48; 49; 50; 51; 52; 53; 54; 55; 56; 57; 97; 98; 99; 100;
                 101; 102];
     af_after_task := [22; 0; 3]; af_lport := 22; af_direction := 3;
     af_l4_proto := 6; af_pid := 700 |}.

Lemma new_Flow_decoded_witness :
  ProcessName (new_Flow 1 2 3 inetNtop0 ntohs0 value_unterminated)
  = af_task value_unterminated ++ [22].
Proof.
  destruct (new_Flow_decoded 1 2 3 inetNtop0 ntohs0 value_unterminated)
    as (_ & _ & Hon & _).
  rewrite Hon; [reflexivity|].
  simpl. rewrite !not_elem_of_cons. repeat split; try lia.
  apply not_elem_of_nil.
Defined.

Lemma new_AggrFlowStat_no_wrap_witness :
  new_AggrFlowStat {| ts_us := 7; sent_bytes := 2048; recv_bytes := 512 |}
  = {| Timestamp := Unix (7 * 1000000) 0; sentBytes := 2048;
       recvBytes := 512 |}.
Proof.
  apply (new_AggrFlowStat_no_wrap
           {| ts_us := 7; sent_bytes := 2048; recv_bytes := 512 |});
    simpl; lia.
Defined.

(** The ssh flow handed back twice, first under pid 1, then under pid 700. *)
Lemma dump_last_slot_wins_witness :
  (∀ flows,
     dumpAggrFlows 1 2 3 inetNtop0 ntohs0 Z
       (Ok ([(tuple_ssh, value_of tuple_ssh [115; 115; 104; 0] 1)]
            ++ (tuple_ssh, value_of tuple_ssh [115; 115; 104; 100; 0; 0] 700)
            :: [(tuple_dns, value_of tuple_dns [100; 105; 103; 0; 0; 0] 812)]))
     = Ok flows →
     flows !! tuple_ssh
     = Some (new_Flow 1 2 3 inetNtop0 ntohs0
               (value_of tuple_ssh [115; 115; 104; 100; 0; 0] 700)))
  ∧ (∀ stats,
       dumpAggrFlowStats Z
         (Ok ([] ++ (tuple_ssh, {| ts_us := 7; sent_bytes := 2048;
                                   recv_bytes := 512 |}) :: []))
       = Ok stats →
       stats !! tuple_ssh
       = Some (new_AggrFlowStat {| ts_us := 7; sent_bytes := 2048;
                                   recv_bytes := 512 |})).
Proof.
  apply (dump_last_slot_wins 1 2 3 inetNtop0 ntohs0 Z).
  - simpl. rewrite not_elem_of_cons. split; [by intros [=]|].
    apply not_elem_of_nil.
  - simpl. apply not_elem_of_nil.
Defined.

Lemma DumpFlows_errors_witness :
  (is_Ok (Err (A := list Flow) 7)
     ↔ is_Ok (Err (A := list (AggrFlowTuple * aggregated_flow)) 7)
       ∧ is_Ok (Ok (E := Z) drained_stats0))
  ∧ (∀ e : Z, Err (A := list Flow) 7 = Err e →
       Err (A := list (AggrFlowTuple * aggregated_flow)) 7 = Err e
       ∨ Ok drained_stats0 = Err e).
Proof.
  apply (DumpFlows_errors 1 2 3 inetNtop0 ntohs0 Z).
  apply DumpFlows_flows_failed.
Defined.

(** A host on which everything works and statistics get fd 5. *)
Definition system0 : system Z :=
  {| bumpMemlockRlimit := None;
     conntracer_bpf__open_and_load := 4096;
     conntracer_bpf__attach := 0;
     enableBPFStats := Ok 5 |}.

Definition tracer0 : Tracer :=
  {| obj := 4096; stopChan_closed := false; statsFd := 5; batchSize := 10 |}.

Example NewTracer0 : NewTracer system0 {| Stats := true |} = Ok tracer0.
Proof. reflexivity. Qed.

Lemma NewTracer_then_Close_witness :
  Close tracer0
  = [close_stopChan; syscall_Close 5; conntracer_bpf__destroy 4096].
Proof.
  apply (NewTracer_then_Close Z system0 {| Stats := true |} tracer0).
  reflexivity.
Defined.

(** The ticks of [pollFlows_run], started through [Start]. *)
Example Start_pollFlows_run :
  Start None (Tick (Err 7) None :: Tick (Ok dumped0) (Some 9) :: Stop
                :: Tick (Ok dumped0) None :: [])
  = (None, [Log 7; Callback []; Callback dumped0; Log 9])
  ∧ Start (Some 3) (Tick (Ok dumped0) None :: []) = (Some 3, []).
Proof. split; reflexivity. Qed.


End Tracer.

(** ** tracer_streaming.go *)

Module Streaming.

(** [syscall.EINTR] *)
Definition EINTR : Z := 4.

(** [syscall.Errno(x)] of a C int: a conversion to [uintptr], 64 bits on
    the Linux targets the object is built for. *)
Definition Errno (x : Z) : Z := u64 x.

(** Unary minus on a C int. *)
Definition neg_int (n : Z) : Z := i32 (- n).

Section Start.

(** What [initializeUDPPortBindingMap] may fail with. *)
Variable init_error : Type.

Inductive start_error :=
  | InitFailed (e : init_error)
  | PollFailed (n : Z).        (* "error polling ring buffer: %d" *)

(** What [select] picks in one iteration: the stop channel, or a tick, on
    which [ring_buffer__poll] returns [n]. *)
Inductive event :=
  | Stop
  | Tick (n : Z).

(** [Returned err]: Start returned [err]; [Polling]: it is back in
    [select]. *)
Inductive outcome :=
  | Returned (err : option start_error)
  | Polling.

Fixpoint poll_loop (evs : list event) : outcome :=
  match evs with
  | [] => Polling
  | Stop :: _ => Returned None
  | Tick n :: evs' =>
      if decide (n < 0) then
        if decide (Errno (neg_int n) = EINTR) then
          poll_loop evs'         (* break leaves the select only *)
        else Returned (Some (PollFailed n))
      else poll_loop evs'
  end.

Definition Start (init : option init_error) (evs : list event) : outcome :=
  match init with
  | Some e => Returned (Some (InitFailed e))
  | None => poll_loop evs
  end.

Lemma Errno_neg_EINTR n :
  - 2 ^ 31 <= n < 2 ^ 31 → n < 0 → Errno (neg_int n) = EINTR ↔ n = - EINTR.
Proof.
  intros Hrange Hneg. unfold Errno, neg_int, i32, signed, u64, EINTR.
  change (2 ^ 32) with 4294967296. change (2 ^ (32 - 1)) with 2147483648.
  change (2 ^ 64) with 18446744073709551616.
  change (2 ^ 31) with 2147483648 in Hrange.
  destruct (decide (n = -2147483648)) as [->|Hmin].
  - vm_compute. split; discriminate.
  - rewrite (Z.mod_small (- n)) by lia.
    destruct (Z.ltb_spec (- n) 2147483648); [|lia].
    rewrite Z.mod_small by lia. lia.
Qed.

(** C8. In the loop of [Start], a poll that returns [-EINTR] is absorbed
    and the loop goes on; any other negative return makes [Start] return
    an error, whatever would have come next; a non-negative return goes
    on with the loop. *)
Theorem Start_poll_errors n evs :
  - 2 ^ 31 <= n < 2 ^ 31 →
  (n = - EINTR → Start None (Tick n :: evs) = Start None evs)
  ∧ (n < 0 → n ≠ - EINTR →
     Start None (Tick n :: evs) = Returned (Some (PollFailed n)))
  ∧ (0 <= n → Start None (Tick n :: evs) = Start None evs).
Proof.
  intros Hrange. simpl. split; [|split].
  - intros ->. reflexivity.
  - intros Hneg Hne. rewrite decide_True by done.
    rewrite decide_False; [done|]. by rewrite Errno_neg_EINTR.
  - intros Hpos. rewrite decide_False by lia. done.
Qed.

(** *** How a run of the loop ends *)

(** A tick whose poll went well or was interrupted. *)
Definition benign (ev : event) : Prop :=
  match ev with
  | Tick n => 0 <= n ∨ n = - EINTR
  | Stop => False
  end.

(** [ring_buffer__poll] returns a C int. *)
Definition int_range (ev : event) : Prop :=
  match ev with
  | Tick n => - 2 ^ 31 <= n < 2 ^ 31
  | Stop => True
  end.

Lemma poll_loop_tick n evs :
  - 2 ^ 31 <= n < 2 ^ 31 →
  poll_loop (Tick n :: evs)
  = if decide (0 <= n ∨ n = - EINTR) then poll_loop evs
    else Returned (Some (PollFailed n)).
Proof.
  intros Hrange. simpl. destruct (decide (n < 0)) as [Hneg|Hpos].
  - destruct (decide (Errno (neg_int n) = EINTR)) as [He|He].
    + apply Errno_neg_EINTR in He; [|done|done].
      rewrite decide_True by (by right). done.
    + rewrite decide_False; [done|]. intros [?|Heq]; [lia|].
      apply He. by apply Errno_neg_EINTR.
  - rewrite decide_True by (left; lia). done.
Qed.

(** X24. [Start] fails at once when the port-binding initializer fails.
    Otherwise only three things can happen: every event so far was a
    benign tick and the loop is still polling; or the stop channel was
    picked after benign ticks only and [Start] returned nil; or the first
    tick that was neither successful nor interrupted made it return that
    poll's error, and nothing after it was served. *)
Theorem Start_outcome evs :
  Forall int_range evs →
  (∀ e, Start (Some e) evs = Returned (Some (InitFailed e)))
  ∧ ((Forall benign evs ∧ Start None evs = Polling)
     ∨ (∃ pre post, evs = pre ++ Stop :: post ∧ Forall benign pre
          ∧ Start None evs = Returned None)
     ∨ (∃ pre n post, evs = pre ++ Tick n :: post ∧ Forall benign pre
          ∧ n < 0 ∧ n ≠ - EINTR
          ∧ Start None evs = Returned (Some (PollFailed n)))).
Proof.
  intros Hrange. split; [done|]. unfold Start.
  induction Hrange as [|ev evs Hev Hevs IH].
  - left. by split.
  - destruct ev as [|n].
    + right. left. exists [], evs. by repeat split.
    + simpl in Hev. rewrite (poll_loop_tick n evs Hev).
      destruct (decide (0 <= n ∨ n = - EINTR)) as [Hb|Hb].
      * destruct IH as [[Hall Hout]|[(pre & post & -> & Hpre & Hout)
                                     |(pre & k & post & -> & Hpre & Hk & Hk' & Hout)]].
        -- left. split; [by constructor|done].
        -- right. left. exists (Tick n :: pre), post.
           split; [done|]. split; [by constructor|done].
        -- right. right. exists (Tick n :: pre), k, post.
           split; [done|]. split; [by constructor|done].
      * right. right. exists [], n, evs.
        split; [done|]. split; [constructor|].
        split; [lia|]. split; [|done]. intros ->. apply Hb. by right.
Qed.

End Start.

Arguments Polling {init_error}.
Arguments Returned {init_error} err.
Arguments PollFailed {init_error} n.

(** Interrupted once, then a poll that fails with -EBADF: the ticks after
    it are never served. *)
Example Start_run :
  Start Z None [Tick 3; Tick (-4); Tick 0; Tick (-9); Tick 1; Stop]
  = Returned (Some (PollFailed (-9))).
Proof. reflexivity. Qed.

Lemma Start_poll_errors_witness :
  (-9 = - EINTR → Start Z None [Tick (-9); Stop] = Start Z None [Stop])
  ∧ (-9 < 0 → -9 ≠ - EINTR →
     Start Z None [Tick (-9); Stop] = Returned (Some (PollFailed (-9))))
  ∧ (0 <= -9 → Start Z None [Tick (-9); Stop] = Start Z None [Stop]).
Proof. apply (Start_poll_errors Z (-9) [Stop]). lia. Defined.

(** *** Close *)

Record TracerStreaming := {
  obj : Z;                 (* *C.struct_conntracer_streaming_bpf *)
  rb : Z;                  (* *C.struct_ring_buffer *)
  stopChan_closed : bool;  (* whether stopChan was closed already *)
  statsFd : Z
}.

(** The calls [Close] makes. *)
Inductive call :=
  | close_stopChan
  | syscall_Close (fd : Z)
  | ring_buffer__free (rb : Z)
  | conntracer_streaming_bpf__destroy (obj : Z)
  | panic.                 (* close of closed channel *)

#[global] Instance call_eq_dec : EqDecision call.
Proof. solve_decision. Defined.

(** [Close], as the calls it makes, in order. *)
Definition Close (t : TracerStreaming) : list call :=
  if stopChan_closed t then [panic]
  else
    [close_stopChan]
    ++ (if decide (statsFd t ≠ 0) then [syscall_Close (statsFd t)] else [])
    ++ [ring_buffer__free (rb t); conntracer_streaming_bpf__destroy (obj t)].

(** [a] is called before [b]. *)
Definition before (a b : call) (calls : list call) : Prop :=
  ∃ i j : nat, calls !! i = Some a ∧ calls !! j = Some b ∧ (i < j)%nat.

(** The order of the specification: ring buffer, then BPF object, then
    stats fd. *)
Definition release_order_of_spec (t : TracerStreaming) : Prop :=
  before (ring_buffer__free (rb t))
         (conntracer_streaming_bpf__destroy (obj t)) (Close t)
  ∧ before (conntracer_streaming_bpf__destroy (obj t))
           (syscall_Close (statsFd t)) (Close t).

(** A tracer opened with [Stats: true], whose stats fd is 5. *)
Definition tracer_with_stats : TracerStreaming :=
  {| obj := 4096; rb := 8192; stopChan_closed := false; statsFd := 5 |}.

Example Close_tracer_with_stats :
  Close tracer_with_stats
  = [close_stopChan; syscall_Close 5; ring_buffer__free 8192;
     conntracer_streaming_bpf__destroy 4096].
Proof. reflexivity. Qed.

(** On that tracer the stats fd is closed first, not last. *)
Lemma Close_not_in_order_of_spec : ¬ release_order_of_spec tracer_with_stats.
Proof.
  intros [_ (i & j & Hi & Hj & Hlt)].
  rewrite Close_tracer_with_stats in Hi, Hj. simpl in Hi, Hj.
  destruct i as [|[|[|[|i]]]]; simpl in Hi; try discriminate.
  destruct j as [|[|[|[|j]]]]; simpl in Hj; try discriminate.
  lia.
Qed.

(** C9, as the code has it. [Close] closes the stop channel, then the
    stats fd if there is one, then frees the ring buffer, then destroys
    the BPF object. *)
Theorem Close_order t :
  stopChan_closed t = false →
  Close t
  = [close_stopChan]
    ++ (if decide (statsFd t ≠ 0) then [syscall_Close (statsFd t)] else [])
    ++ [ring_buffer__free (rb t); conntracer_streaming_bpf__destroy (obj t)]
  ∧ before (ring_buffer__free (rb t))
           (conntracer_streaming_bpf__destroy (obj t)) (Close t)
  ∧ (statsFd t ≠ 0 →
     before (syscall_Close (statsFd t)) (ring_buffer__free (rb t)) (Close t))
  ∧ (statsFd t = 0 → ∀ fd, syscall_Close fd ∉ Close t).
Proof.
  intros Hopen. unfold Close. rewrite Hopen.
  split; [done|]. case_decide as Hfd; simpl.
  - split; [by exists 2%nat, 3%nat; repeat split; auto with lia|].
    split; [|done]. intros _.
    exists 1%nat, 2%nat. repeat split; auto with lia.
  - split; [by exists 1%nat, 2%nat; repeat split; auto with lia|].
    split; [intros ?; lia|]. intros _ fd Hin.
    repeat (apply elem_of_cons in Hin as [Hin|Hin]; [discriminate|]).
    by apply elem_of_nil in Hin.
Qed.

Lemma Close_order_witness :
  Close tracer_with_stats
  = [close_stopChan]
    ++ (if decide (statsFd tracer_with_stats ≠ 0)
        then [syscall_Close (statsFd tracer_with_stats)] else [])
    ++ [ring_buffer__free (rb tracer_with_stats);
        conntracer_streaming_bpf__destroy (obj tracer_with_stats)]
  ∧ before (ring_buffer__free (rb tracer_with_stats))
           (conntracer_streaming_bpf__destroy (obj tracer_with_stats))
           (Close tracer_with_stats)
  ∧ (statsFd tracer_with_stats ≠ 0 →
     before (syscall_Close (statsFd tracer_with_stats))
            (ring_buffer__free (rb tracer_with_stats))
            (Close tracer_with_stats))
  ∧ (statsFd tracer_with_stats = 0 →
     ∀ fd, syscall_Close fd ∉ Close tracer_with_stats).
Proof. apply (Close_order tracer_with_stats). reflexivity. Defined.

(** *** Construction *)

Section Lifecycle.

Variable error : Type.

(** [TracerParam] of tracer.go. *)
Definition Stats (param : Tracer.TracerParam) : bool := Tracer.Stats param.

(** What the host answers to the calls [NewTracerStreaming] makes. *)
Record system := {
  bumpMemlockRlimit : option error;
  conntracer_streaming_bpf__open_and_load : Z;   (* the object, 0 for nil *)
  conntracer_streaming_bpf__attach : Z;          (* C int *)
  ring_buffer__new : Z;                          (* the ring, 0 for NULL *)
  enableBPFStats : result error Z
}.

Inductive NewTracerStreaming_error :=
  | RlimitFailed (e : error)
  | OpenFailed             (* "failed to open and load BPF object" *)
  | AttachFailed           (* "failed to attach BPF programs: ..." *)
  | RingBufferFailed       (* "failed to create ring buffer" *)
  | StatsFailed (e : error).

(** [new_ring_buf]: a pointer is an address, never below 0. *)
Definition new_ring_buf (sys : system) : Z :=
  let rb0 := u64 (ring_buffer__new sys) in
  if decide (rb0 < 0) then 0 else rb0.

(** [NewTracerStreaming]: the tracer or the error, and the teardown calls
    made on the way. *)
Definition NewTracerStreaming (sys : system) (param : Tracer.TracerParam)
    : result NewTracerStreaming_error TracerStreaming * list call :=
  match bumpMemlockRlimit sys with
  | Some e => (Err (RlimitFailed e), [])
  | None =>
      let obj0 := conntracer_streaming_bpf__open_and_load sys in
      if decide (obj0 = 0) then (Err OpenFailed, [])
      else if decide (conntracer_streaming_bpf__attach sys ≠ 0) then
        (Err AttachFailed, [conntracer_streaming_bpf__destroy obj0])
      else
        let rb0 := new_ring_buf sys in
        if decide (rb0 = 0) then (Err RingBufferFailed, [])
        else if Stats param then
          match enableBPFStats sys with
          | Err e => (Err (StatsFailed e), [])
          | Ok fd =>
              (Ok {| obj := obj0; rb := rb0; stopChan_closed := false;
                     statsFd := fd |}, [])
          end
        else
          (Ok {| obj := obj0; rb := rb0; stopChan_closed := false;
                 statsFd := 0 |}, [])
  end.

Lemma new_ring_buf_u64 sys : new_ring_buf sys = u64 (ring_buffer__new sys).
Proof.
  unfold new_ring_buf. rewrite decide_False; [done|].
  unfold u64. pose proof (Z.mod_pos_bound (ring_buffer__new sys) (2 ^ 64)). lia.
Qed.

(** X25. [NewTracerStreaming] hands out a tracer exactly when the rlimit was
    raised, the object loaded and attached, the ring buffer created and,
    if asked for, the statistics enabled. The check in [new_ring_buf]
    never fires: the tracer's ring is what [ring_buffer__new] returned. *)
Theorem NewTracerStreaming_succeeds_iff sys param t :
  (NewTracerStreaming sys param).1 = Ok t
  ↔ bumpMemlockRlimit sys = None
    ∧ conntracer_streaming_bpf__open_and_load sys ≠ 0
    ∧ conntracer_streaming_bpf__attach sys = 0
    ∧ u64 (ring_buffer__new sys) ≠ 0
    ∧ obj t = conntracer_streaming_bpf__open_and_load sys
    ∧ rb t = u64 (ring_buffer__new sys)
    ∧ stopChan_closed t = false
    ∧ (if Stats param then enableBPFStats sys = Ok (statsFd t)
       else statsFd t = 0).
Proof.
  unfold NewTracerStreaming. rewrite new_ring_buf_u64. split.
  - destruct (bumpMemlockRlimit sys); [done|].
    case_decide as Hobj; [done|]. case_decide as Hatt; [done|].
    assert (conntracer_streaming_bpf__attach sys = 0)
      by (destruct (decide (conntracer_streaming_bpf__attach sys = 0));
          [done|by destruct Hatt]).
    case_decide as Hrb; [done|].
    destruct (Stats param).
    + destruct (enableBPFStats sys) as [fd|e]; [|done].
      intros [= <-]. simpl. done.
    + intros [= <-]. simpl. done.
  - intros (-> & Hobj & Hatt & Hrb & Ho & Hr & Hc & Hstats).
    rewrite decide_False by done. rewrite decide_False by lia.
    rewrite decide_False by done.
    destruct t as [o r c fd]. simpl in *. subst.
    destruct (Stats param).
    + by rewrite Hstats.
    + by subst.
Qed.

(** X26. Of all the ways [NewTracerStreaming] can fail, only a failed attach
    destroys the object that was loaded; after a failure to create the
    ring buffer or to enable statistics no teardown call is made. *)
Theorem NewTracerStreaming_teardown_on_failure sys param :
  (NewTracerStreaming sys param).2
  = if decide (bumpMemlockRlimit sys = None
               ∧ conntracer_streaming_bpf__open_and_load sys ≠ 0
               ∧ conntracer_streaming_bpf__attach sys ≠ 0)
    then [conntracer_streaming_bpf__destroy
            (conntracer_streaming_bpf__open_and_load sys)]
    else [].
Proof.
  unfold NewTracerStreaming.
  destruct (decide (bumpMemlockRlimit sys = None
                    ∧ conntracer_streaming_bpf__open_and_load sys ≠ 0
                    ∧ conntracer_streaming_bpf__attach sys ≠ 0))
    as [(Hbump & Hobj & Hatt)|Hnot].
  - rewrite Hbump. by rewrite decide_False, decide_True.
  - destruct (bumpMemlockRlimit sys) as [e|]; [done|].
    case_decide as Hobj; [done|].
    case_decide as Hatt; [by destruct Hnot|].
    case_decide; [done|].
    destruct (Stats param); [|done]. by destruct (enableBPFStats sys).
Qed.

(** X27. Closing a tracer that [NewTracerStreaming] built releases what it
    acquired: the stats fd when statistics were enabled and the fd is not
    0, the ring it created and the object it loaded, in this order. *)
Theorem NewTracerStreaming_then_Close sys param t :
  (NewTracerStreaming sys param).1 = Ok t →
  Close t
  = close_stopChan
    :: match Stats param, enableBPFStats sys with
       | true, Ok fd => if decide (fd ≠ 0) then [syscall_Close fd] else []
       | _, _ => []
       end
    ++ [ring_buffer__free (u64 (ring_buffer__new sys));
        conntracer_streaming_bpf__destroy
          (conntracer_streaming_bpf__open_and_load sys)].
Proof.
  unfold NewTracerStreaming. rewrite new_ring_buf_u64.
  destruct (bumpMemlockRlimit sys); [done|].
  case_decide as Hobj; [done|]. case_decide as Hatt; [done|].
  case_decide as Hrb; [done|].
  destruct (Stats param).
  - destruct (enableBPFStats sys) as [fd|e]; [|done].
    intros [= <-]. unfold Close. simpl. done.
  - intros [= <-]. unfold Close. simpl. by destruct (enableBPFStats sys).
Qed.

End Lifecycle.

Arguments bumpMemlockRlimit {error} s.
Arguments conntracer_streaming_bpf__open_and_load {error} s.
Arguments conntracer_streaming_bpf__attach {error} s.
Arguments ring_buffer__new {error} s.
Arguments enableBPFStats {error} s.
Arguments NewTracerStreaming {error} sys param.

Lemma Start_outcome_witness :
  (∀ e : Z, Start Z (Some e) [Tick 3; Tick (-4); Stop]
            = Returned (Some (InitFailed Z e)))
  ∧ ((Forall benign [Tick 3; Tick (-4); Stop]
      ∧ Start Z None [Tick 3; Tick (-4); Stop] = Polling)
     ∨ (∃ pre post, [Tick 3; Tick (-4); Stop] = pre ++ Stop :: post
          ∧ Forall benign pre
          ∧ Start Z None [Tick 3; Tick (-4); Stop] = Returned None)
     ∨ (∃ pre n post, [Tick 3; Tick (-4); Stop] = pre ++ Tick n :: post
          ∧ Forall benign pre ∧ n < 0 ∧ n ≠ - EINTR
          ∧ Start Z None [Tick 3; Tick (-4); Stop]
            = Returned (Some (PollFailed n)))).
Proof.
  apply (Start_outcome Z [Tick 3; Tick (-4); Stop]).
  repeat apply Forall_cons_2; simpl; try lia; try exact I.
  apply Forall_nil_2.
Defined.

(** A host on which everything works: the ring at 8192, statistics on
    fd 5. *)
Definition system0 : system Z :=
  {| bumpMemlockRlimit := None;
     conntracer_streaming_bpf__open_and_load := 4096;
     conntracer_streaming_bpf__attach := 0;
     ring_buffer__new := 8192;
     enableBPFStats := Ok 5 |}.

(** The same host, refusing to attach with -EPERM. *)
Definition system_no_attach : system Z :=
  {| bumpMemlockRlimit := None;
     conntracer_streaming_bpf__open_and_load := 4096;
     conntracer_streaming_bpf__attach := -1;
     ring_buffer__new := 8192;
     enableBPFStats := Ok 5 |}.

Example NewTracerStreaming0 :
  NewTracerStreaming system0 {| Tracer.Stats := true |}
  = (Ok tracer_with_stats, [])
  ∧ NewTracerStreaming system_no_attach {| Tracer.Stats := true |}
    = (Err (AttachFailed Z), [conntracer_streaming_bpf__destroy 4096]).
Proof. split; reflexivity. Qed.

Lemma NewTracerStreaming_then_Close_witness :
  Close tracer_with_stats
  = [close_stopChan; syscall_Close 5; ring_buffer__free 8192;
     conntracer_streaming_bpf__destroy 4096].
Proof.
  apply (NewTracerStreaming_then_Close Z system0 {| Tracer.Stats := true |}
           tracer_with_stats).
  reflexivity.
Defined.


End Streaming.
